(** * sympy_adc: canonical forms of symmetry-constrained tensors

    A shallow embedding of [sympy_adc/sympy_objects.py]: the index ordering
    oracle ([_sort_canonical]), the antisymmetric tensor normaliser
    ([AntiSymmetricTensor.__new__], [add_bra_ket_sym]), the generalised
    Kronecker delta ([Delta.eval], [_get_preferred_index]) and the
    single-symmetry tensor normaliser ([SingleSymmetryTensor.__new__]).

    Python exceptions are an error monad, the symbolic host (sympy) is an
    interface ([Host]) and the constructors return the tagged results the
    Python code returns ([S.Zero], [S.One], a tensor, a negated tensor). *)

From Stdlib Require Import ZArith Ascii String Lia.
From stdpp Require Import base option list sorting strings pretty gmap.

Set Default Proof Using "Type".

(** ** Exceptions *)

(** Which [raise Inputerror(...)] statement fired. *)
Inductive InputFault :=
  | InvalidBraKetSym      (* "Invalid bra ket symmetry given ..." *)
  | BraKetSymAlreadySet   (* "bra ket symmetry already set. ..." *)
  | InvalidFactor.        (* "Invalid factor ..." *)

(** Which [raise NotImplementedError(...)] statement fired. *)
Inductive Unsupported :=
  | UnequalBraKetLength       (* AntiSymmetricTensor.__new__ *)
  | DifferentSpin             (* Delta._get_preferred_index *)
  | IntersectingPermutations. (* SingleSymmetryTensor.__new__ *)

Inductive Error :=
  | Inputerror (what : InputFault)
  | NotImplementedError (what : Unsupported)
  | ViolationOfPauliPrinciple
  | TypeError
  | AttributeError
  | IndexError.

(** The outcome of a call: a returned value, a raised exception, or (for the
    one recursive constructor, [Delta]) exhausted fuel. *)
Inductive Outcome (A : Type) : Type :=
  | Return (a : A)
  | Raise (e : Error)
  | OutOfFuel.
Arguments Return {A} a.
Arguments Raise {A} e.
Arguments OutOfFuel {A}.

Definition bind {A B : Type} (m : Outcome A) (k : A → Outcome B) : Outcome B :=
  match m with
  | Return a => k a
  | Raise e => Raise e
  | OutOfFuel => OutOfFuel
  end.

Notation "x <- m ; k" := (bind m (fun x => k))
  (at level 20, m at level 100, k at level 200, only parsing).
Notation "' p <- m ; k" := (bind m (fun x => match x with p => k end))
  (at level 20, p pattern, m at level 100, k at level 200, only parsing).

Definition fmap_outcome {A B : Type} (f : A → B) (m : Outcome A) : Outcome B :=
  a <- m ; Return (f a).

(** ** Python's orderings *)

(** [a < b] for two values compared through a three-way comparison. *)
Definition is_lt (c : comparison) : bool :=
  match c with Lt => true | _ => false end.

(** Tuples compare lexicographically: the first differing component decides. *)
Definition lex (c1 c2 : comparison) : comparison :=
  match c1 with Eq => c2 | _ => c1 end.

(** Lists compare lexicographically, a proper prefix being the smaller. *)
Fixpoint list_compare {A : Type} (cmp : A → A → comparison)
    (l1 l2 : list A) : comparison :=
  match l1, l2 with
  | [], [] => Eq
  | [], _ :: _ => Lt
  | _ :: _, [] => Gt
  | x :: l1', y :: l2' => lex (cmp x y) (list_compare cmp l1' l2')
  end.

(** ** Data model *)

(** Modelled from the spec: the [Index] entity, which the source imports from
    [.indices].  An index has a space tag, of which the code only ever reads
    the first character ([idx.space[0]]), a spin tag (a possibly empty string),
    a name made of a letter ([idx.name[0]]) and an optional numeric suffix
    ([idx.name[1:]], [None] when the suffix is empty), and the identity of the
    placeholder (two indices of the same name can be distinct). *)
Record Index := {
  space0 : ascii;
  spin : string;
  name0 : ascii;
  name_tail : option Z;
  ident : Z
}.

Global Instance Index_eq_dec : EqDecision Index.
Proof. solve_decision. Defined.

(** A value handed to the constructors: an [Index], or any other expression of
    the host ([isinstance(idx, Index)] tells them apart). *)
Inductive Value (O : Type) : Type :=
  | VIndex (x : Index)
  | VOther (o : O).
Arguments VIndex {O} x.
Arguments VOther {O} o.

Global Instance Value_eq_dec {O : Type} `{EqDecision O} : EqDecision (Value O).
Proof. solve_decision. Defined.

(** The primitives of the symbolic host the module relies on.
    - [str], [hash]: Python's [str(idx)] and [hash(idx)];
    - [diff_is_zero i j]: the three-valued [(i - j).is_zero];
    - [diff_gt_zero a b], [diff_lt_zero a b]: the relationals [a - b > 0] and
      [a - b < 0]; [None] is a relational the host cannot decide, whose truth
      value Python's [if]/[or] cannot take: the host raises [TypeError]. *)
Class Host := {
  Other : Type;
  Other_eq_dec :: EqDecision Other;
  str : Other → string;
  hash : Value Other → Z;
  diff_is_zero : Value Other → Value Other → option bool;
  diff_gt_zero : Value Other → Value Other → option bool;
  diff_lt_zero : Value Other → Value Other → option bool
}.

Abbreviation val := (Value Other).

(** [int(idx.name[1:]) if idx.name[1:] else 0] *)
Definition name_number (x : Index) : Z :=
  match name_tail x with
  | Some n => n
  | None => 0%Z
  end.

(** The contract of the identity tie-break (spec, data model): indices that
    agree on space, spin, numeric suffix and letter differ in their hash. *)
Definition hash_breaks_ties (H : Host) : Prop :=
  ∀ x y : Index,
    space0 x = space0 y → spin x = spin y →
    name_number x = name_number y → name0 x = name0 y →
    hash (VIndex x) = hash (VIndex y) → x = y.


(** ** The ordering oracle's keys *)

(** The two tuples [_sort_canonical] returns:
    [(space[0], spin, number, name[0], hash)] for an [Index] and
    [('', 0, str(idx), hash(idx))] for anything else. *)
Inductive Key :=
  | KeyIndex (sp : ascii) (spn : string) (num : Z) (letter : ascii) (h : Z)
  | KeyOther (s : string) (h : Z).

Global Instance Key_eq_dec : EqDecision Key.
Proof. solve_decision. Defined.

(** Python's tuple comparison on keys.  The first component of an index key is
    a one-character string and that of any other key is the empty string, so
    a key of the second kind is below every key of the first kind and the
    comparison never reaches the second components of two unlike tuples. *)
Definition key_compare (k1 k2 : Key) : comparison :=
  match k1, k2 with
  | KeyIndex sp1 spn1 n1 c1 h1, KeyIndex sp2 spn2 n2 c2 h2 =>
      lex (Ascii.compare sp1 sp2)
        (lex (String.compare spn1 spn2)
           (lex (Z.compare n1 n2)
              (lex (Ascii.compare c1 c2) (Z.compare h1 h2))))
  | KeyOther s1 h1, KeyOther s2 h2 =>
      lex (String.compare s1 s2) (Z.compare h1 h2)
  | KeyOther _ _, KeyIndex _ _ _ _ _ => Lt
  | KeyIndex _ _ _ _ _, KeyOther _ _ => Gt
  end.

Definition key_ltb (k1 k2 : Key) : bool := is_lt (key_compare k1 k2).

(** [isinstance(s, Index)] *)
Definition is_Index {O : Type} (v : Value O) : bool :=
  match v with VIndex _ => true | VOther _ => false end.

(** Attribute access [v.space[0]], [v.spin], [v.name]: values that are not an
    [Index] have no such attribute. *)
Definition get_space0 {O : Type} (v : Value O) : Outcome ascii :=
  match v with VIndex x => Return (space0 x) | VOther _ => Raise AttributeError end.

Definition get_spin {O : Type} (v : Value O) : Outcome string :=
  match v with VIndex x => Return (spin x) | VOther _ => Raise AttributeError end.

Definition get_name {O : Type} (v : Value O) : Outcome (Z * ascii) :=
  match v with
  | VIndex x => Return (name_number x, name0 x)
  | VOther _ => Raise AttributeError
  end.

(** [[f(s) for s in l]] for an [f] that may raise. *)
Fixpoint comprehension {A B : Type} (f : A → Outcome B) (l : list A)
    : Outcome (list B) :=
  match l with
  | [] => Return []
  | x :: l' => y <- f x ; ys <- comprehension f l' ; Return (y :: ys)
  end.

(** [l[i]] for a non-negative position [i]. *)
Definition getitem {A : Type} (l : list A) (i : nat) : Outcome A :=
  match l !! i with
  | Some x => Return x
  | None => Raise IndexError
  end.

(** The results of the constructors: [S.Zero], the object, or [-object]. *)
Inductive Signed (T : Type) : Type :=
  | S_Zero
  | Plus (t : T)
  | Minus (t : T).
Arguments S_Zero {T}.
Arguments Plus {T} t.
Arguments Minus {T} t.

(** The host's unary minus on these results. *)
Definition negate {T : Type} (e : Signed T) : Signed T :=
  match e with
  | S_Zero => S_Zero
  | Plus t => Minus t
  | Minus t => Plus t
  end.

(** Modelled from the spec: the host's permutation-sort primitive
    [_sort_anticommuting_fermions(string1, key)].  It orders the sequence by
    key through exchanges of neighbours, counts the exchanges, and raises
    [ViolationOfPauliPrinciple] when two entries of equal key meet. *)
Fixpoint insert_fermion {A : Type} (key : A → Key) (x : A) (l : list A)
    : Outcome (list A * nat) :=
  match l with
  | [] => Return ([x], 0)
  | y :: l' =>
      match key_compare (key x) (key y) with
      | Lt => Return (x :: y :: l', 0)
      | Eq => Raise ViolationOfPauliPrinciple
      | Gt => '(r, n) <- insert_fermion key x l' ; Return (y :: r, S n)
      end
  end.

Fixpoint _sort_anticommuting_fermions {A : Type} (key : A → Key) (string1 : list A)
    : Outcome (list A * nat) :=
  match string1 with
  | [] => Return ([], 0)
  | x :: rest =>
      '(sorted, sign) <- _sort_anticommuting_fermions key rest ;
      '(r, n) <- insert_fermion key x sorted ;
      Return (r, sign + n)
  end.

(** ** Notions the statements use *)

(** A three-way comparison that is a strict total order. *)
Record total_cmp {A : Type} (cmp : A → A → comparison) : Prop := {
  cmp_eq x y : cmp x y = Eq ↔ x = y;
  cmp_opp x y : cmp y x = CompOpp (cmp x y);
  cmp_trans x y z : cmp x y = Lt → cmp y z = Lt → cmp x z = Lt
}.

(** Two tuples of two components compared as Python compares tuples. *)
Definition lex_pair {A B : Type} (ca : A → A → comparison)
    (cb : B → B → comparison) (x y : A * B) : comparison :=
  lex (ca (fst x) (fst y)) (cb (snd x) (snd y)).

(** [x] is strictly below [y] in the order of the keys. *)
Definition key_lt {A : Type} (key : A → Key) (x y : A) : Prop :=
  key_compare (key x) (key y) = Lt.

Global Instance key_lt_dec {A : Type} (key : A → Key) (x y : A) :
  Decision (key_lt key x y).
Proof. unfold key_lt. apply _. Defined.

(** The entries of [l] whose key is below that of [x]. *)
Definition below {A : Type} (key : A → Key) (x : A) (l : list A) : nat :=
  length (filter (λ y, key_lt key y x) l).

(** The entries of [l] whose key is above that of [x]. *)
Definition above {A : Type} (key : A → Key) (x : A) (l : list A) : nat :=
  length (filter (λ y, key_lt key x y) l).

(** The number of inversions of [l]: pairs of positions whose entries are in
    decreasing key order. *)
Fixpoint inversions {A : Type} (key : A → Key) (l : list A) : nat :=
  match l with
  | [] => 0
  | x :: l' => below key x l' + inversions key l'
  end.

(** The smallest of a list of keys. *)
Definition key_minimum (ks : list Key) : option Key :=
  foldr (λ k m, match m with
                | Some k' => if key_ltb k' k then Some k' else Some k
                | None => Some k
                end) None ks.

(** [l[a], l[b] = l[b], l[a]] *)
Definition exchange {A : Type} (a b : nat) (l : list A) : list A :=
  match l !! a, l !! b with
  | Some x, Some y => <[b := x]> (<[a := y]> l)
  | _, _ => l
  end.

(** Two positions of [l] that hold the same entry. *)
Definition has_duplicate {A : Type} (l : list A) : Prop :=
  ∃ a b x, a ≠ b ∧ l !! a = Some x ∧ l !! b = Some x.

(** The object a result carries, if any. *)
Definition carried {T : Type} (e : Signed T) : option T :=
  match e with
  | S_Zero => None
  | Plus t | Minus t => Some t
  end.

(** The result of a call with the sign of a returned value flipped. *)
Definition negated {T : Type} (m : Outcome (Signed T)) : Outcome (Signed T) :=
  fmap_outcome negate m.

(** ** class AntiSymmetricTensor(TensorSymbol) *)

Module AntiSymmetricTensor.
Section WithHost.
Context `{Host}.

(** The arguments [TensorSymbol.__new__(cls, symbol, upper, lower,
    bra_ket_sym)] stores; the properties [symbol], [upper], [lower] and
    [bra_ket_sym] read [args[0]] .. [args[3]]. *)
Record Tensor := {
  symbol : string;
  upper : list val;
  lower : list val;
  bra_ket_sym : Z
}.

Definition _sort_canonical (idx : val) : Key :=
  match idx with
  | VIndex x =>
      KeyIndex (space0 x) (spin x) (name_number x) (name0 x) (hash idx)
  | VOther o => KeyOther (str o) (hash idx)
  end.

(** [(number, letter)] tuples of the diagonal block compare as tuples. *)
Definition name_compare (a b : Z * ascii) : comparison :=
  lex (Z.compare (fst a) (fst b)) (Ascii.compare (snd a) (snd b)).

(** ["".join([s.space[0] for s in group])] *)
Definition space_string (group : list val) : Outcome string :=
  fmap_outcome string_of_list_ascii (comprehension get_space0 group).

(** [[(int(s.name[1:]) if s.name[1:] else 0, s.name[0]) for s in group]] *)
Definition names (group : list val) : Outcome (list (Z * ascii)) :=
  comprehension get_name group.

(** The [try] block: both groups are sorted; a [ViolationOfPauliPrinciple]
    raised by either sort is what the [except] clause catches. *)
Definition sort_groups (upper lower : list val)
    : Outcome ((list val * nat) * (list val * nat)) :=
  us <- _sort_anticommuting_fermions _sort_canonical upper ;
  ls <- _sort_anticommuting_fermions _sort_canonical lower ;
  Return (us, ls).

(** The bra/ket block of [__new__] (lines 32-57): from the sorted groups
    and [sign_u] to the groups in their final places and the new [sign_u]. *)
Definition bra_ket_block (upper lower : list val) (sign_u : nat)
    (bra_ket_sym : Z) : Outcome (list val * list val * nat) :=
  if bool_decide (bra_ket_sym ≠ 0%Z) && forallb is_Index (upper ++ lower)%list then
    if bool_decide (bra_ket_sym ∉ [1%Z; (-1)%Z]) then
      Raise (Inputerror InvalidBraKetSym)
    else if bool_decide (length upper ≠ length lower) then
      Raise (NotImplementedError UnequalBraKetLength)
    else
      space_u <- space_string upper ;
      space_l <- space_string lower ;
      if String.ltb space_l space_u then
        (* swap *)
        Return (lower, upper,
                if bool_decide (bra_ket_sym = (-1)%Z) then sign_u + 1 else sign_u)
      else if bool_decide (space_l = space_u) then
        lower_names <- names lower ;
        upper_names <- names upper ;
        if is_lt (list_compare name_compare lower_names upper_names) then
          Return (lower, upper,
                  if bool_decide (bra_ket_sym = (-1)%Z) then sign_u + 1 else sign_u)
        else Return (upper, lower, sign_u)
      else Return (upper, lower, sign_u)
  else Return (upper, lower, sign_u).

Definition __new__ (symbol : string) (upper lower : list val)
    (bra_ket_sym : Z) : Outcome (Signed Tensor) :=
  match sort_groups upper lower with
  | Raise ViolationOfPauliPrinciple => Return S_Zero
  | Raise e => Raise e
  | OutOfFuel => OutOfFuel
  | Return ((upper, sign_u), (lower, sign_l)) =>
      '(upper, lower, sign_u) <- bra_ket_block upper lower sign_u bra_ket_sym ;
      let t := {| symbol := symbol; upper := upper; lower := lower;
                  bra_ket_sym := bra_ket_sym |} in
      if bool_decide ((sign_u + sign_l) mod 2 ≠ 0) then Return (Minus t)
      else Return (Plus t)
  end.

Definition add_bra_ket_sym (self : Tensor) (sym : Z) : Outcome (Signed Tensor) :=
  if bool_decide (sym ≠ 0%Z) && bool_decide (bra_ket_sym self = 0%Z) then
    __new__ (symbol self) (upper self) (lower self) sym
  else if bool_decide (sym = 0%Z) then Return (Plus self)
  else Raise (Inputerror BraKetSymAlreadySet).

(** *** Notions the statements use *)

(** The invariant of a stored tensor: each group is in strictly increasing
    key order. *)
Definition canonical (t : Tensor) : Prop :=
  StronglySorted (key_lt _sort_canonical) (upper t)
  ∧ StronglySorted (key_lt _sort_canonical) (lower t).

(** "The group whose space string is lexicographically smaller is stored as
    the lower group", for one call of the constructor. *)
Definition smaller_space_string_is_lower (name : string)
    (group_u group_l : list val) (sym : Z) : Prop :=
  ∀ r t space_u space_l,
    __new__ name group_u group_l sym = Return r → carried r = Some t →
    space_string (upper t) = Return space_u →
    space_string (lower t) = Return space_l →
    space_u ≠ space_l → String.ltb space_l space_u = true.

(** "It fails with an input error if and only if the tensor already carries
    a nonzero symmetry and a different nonzero symmetry is requested", for
    one call of [add_bra_ket_sym]. *)
Definition fails_only_for_another_symmetry (t : Tensor) (sym : Z) : Prop :=
  (∃ what, add_bra_ket_sym t sym = Raise (Inputerror what))
  ↔ bra_ket_sym t ≠ 0%Z ∧ sym ≠ 0%Z ∧ sym ≠ bra_ket_sym t.

End WithHost.
Arguments Tensor {_}.
End AntiSymmetricTensor.

(** ** class Delta(KroneckerDelta) *)

Module Delta.
Section WithHost.
Context `{Host}.

Definition Range : Type := val * val.

(** What constructing a delta yields: [S.Zero], [S.One], or the delta object
    holding its arguments [(i, j)] or [(i, j, delta_range)]. *)
Inductive Expr :=
  | Zero
  | One
  | KroneckerDelta (i j : val) (delta_range : option Range).

Definition _sort_canonical (idx : val) : Key :=
  match idx with
  | VIndex x =>
      KeyIndex (space0 x) (spin x) (name_number x) (name0 x) (hash idx)
  | VOther o => KeyOther (str o) (hash idx)
  end.

(** The truth value Python takes of a host relational. *)
Definition truth (r : option bool) : Outcome bool :=
  match r with
  | Some b => Return b
  | None => Raise TypeError
  end.

(** Python's short-circuit [a or b] under an [if]. *)
Definition or_else (a b : Outcome bool) : Outcome bool :=
  x <- a ; if x then Return true else b.

(** [fuzzy_not] of [sympy.core.logic]. *)
Definition fuzzy_not (v : option bool) : option bool :=
  match v with
  | Some b => Some (negb b)
  | None => None
  end.

(** [a or b] on three-valued results: the first operand when truthy,
    else the second; and the truthiness an [if] sees. *)
Definition fuzzy_or (a b : option bool) : option bool :=
  match a with
  | Some true => a
  | _ => b
  end.

Definition truthy (v : option bool) : bool :=
  match v with Some true => true | _ => false end.

(** [min(i, j, key=key)]: the first of the smallest. *)
Definition min_by (key : val → Key) (i j : val) : val :=
  if key_ltb (key j) (key i) then j else i.

(** The range test of [eval] (lines 155-158). *)
Definition outside_range (i j : val) (delta_range : option Range)
    : Outcome bool :=
  match delta_range with
  | Some (dinf, dsup) =>
      or_else (truth (diff_gt_zero dinf i))
        (or_else (truth (diff_gt_zero dinf j))
           (or_else (truth (diff_lt_zero dsup i))
              (truth (diff_lt_zero dsup j))))
  | None => Return false
  end.

(** [eval] is a class method: [cls] is the constructor it calls to rebuild
    the delta.  [None] is Python's implicit [return None]: no evaluation. *)
Definition eval (cls : val → val → option Range → Outcome Expr)
    (i j : val) (delta_range : option Range) : Outcome (option Expr) :=
  outside <- outside_range i j delta_range ;
  if outside then Return (Some Zero)
  else
    let diff := diff_is_zero i j in
    if truthy (fuzzy_or diff (fuzzy_not diff)) then Return (Some One)
    else
      spi <- get_space0 i ;
      spj <- get_space0 j ;
      if bool_decide (spi ≠ "g"%char) && bool_decide (spj ≠ "g"%char)
         && bool_decide (spi ≠ spj)
      then Return (Some Zero)
      else
        spi <- get_spin i ;
        spj <- get_spin j ;
        if bool_decide (spi ≠ ""%string) && bool_decide (spj ≠ ""%string)
           && bool_decide (spi ≠ spj)
        then Return (Some Zero)
        else
          (* sort the indices of the delta *)
          if bool_decide (i ≠ min_by _sort_canonical i j) then
            match delta_range with
            | Some r => fmap_outcome Some (cls j i (Some r))
            | None => fmap_outcome Some (cls j i None)
            end
          else Return None.

(** Modelled from the spec: how the host constructs the object.  The
    constructor [Delta(i, j, delta_range)] calls [eval]; a value [eval]
    returns is the result, and when it returns [None] the delta object is
    built from the arguments as given.  [eval] calls the constructor again,
    so the recursion is bounded by [fuel]. *)
Fixpoint Delta (fuel : nat) (i j : val) (delta_range : option Range)
    : Outcome Expr :=
  match fuel with
  | O => OutOfFuel
  | S fuel' =>
      r <- eval (Delta fuel') i j delta_range ;
      match r with
      | Some v => Return v
      | None => Return (KroneckerDelta i j delta_range)
      end
  end.

(** [self.args[0]] and [self.args[1]] are the two indices of a delta. *)
Definition _get_preferred_index (args0 args1 : val) : Outcome (option nat) :=
  space1 <- get_space0 args0 ;
  spin1 <- get_spin args0 ;
  space2 <- get_space0 args1 ;
  spin2 <- get_spin args1 ;
  if bool_decide (spin1 ≠ spin2) then
    Raise (NotImplementedError DifferentSpin)
  else if bool_decide (space1 = space2) then Return (Some 0)   (* oo / vv / gg *)
  else if bool_decide (space2 = "g"%char) then Return (Some 0) (* og / vg *)
  else if bool_decide (space1 = "g"%char) then Return (Some 1) (* go / gv *)
  else Return None.

(** *** Notions the statements use *)

(** Rules 1 to 4 of [eval] (lines 155-169): what they return, [None] when
    none of them applies. *)
Definition checks (i j : val) (delta_range : option Range)
    : Outcome (option Expr) :=
  outside <- outside_range i j delta_range ;
  if outside then Return (Some Zero)
  else if truthy (fuzzy_or (diff_is_zero i j) (fuzzy_not (diff_is_zero i j)))
  then Return (Some One)
  else
    spi <- get_space0 i ;
    spj <- get_space0 j ;
    if bool_decide (spi ≠ "g"%char) && bool_decide (spj ≠ "g"%char)
       && bool_decide (spi ≠ spj)
    then Return (Some Zero)
    else
      spi <- get_spin i ;
      spj <- get_spin j ;
      if bool_decide (spi ≠ ""%string) && bool_decide (spj ≠ ""%string)
         && bool_decide (spi ≠ spj)
      then Return (Some Zero)
      else Return None.

(** The host decides the four relationals of the range test. *)
Definition range_decided (i j : val) (delta_range : option Range) : Prop :=
  match delta_range with
  | Some (dinf, dsup) =>
      is_Some (diff_gt_zero dinf i) ∧ is_Some (diff_gt_zero dinf j)
      ∧ is_Some (diff_lt_zero dsup i) ∧ is_Some (diff_lt_zero dsup j)
  | None => True
  end.


End WithHost.
End Delta.

(** ** class SingleSymmetryTensor(TensorSymbol) *)

Module SingleSymmetryTensor.
Section WithHost.
Context `{Host}.

(** The arguments [TensorSymbol.__new__(cls, symbol, indices, perms,
    factor)] stores.  Positions are non-negative integers. *)
Record Tensor := {
  symbol : string;
  indices : list val;
  perms : list (nat * nat);
  factor : Z
}.

Definition _sort_canonical (idx : val) : Key :=
  match idx with
  | VIndex x =>
      KeyIndex (space0 x) (spin x) (name_number x) (name0 x) (hash idx)
  | VOther o => KeyOther (str o) (hash idx)
  end.

(** [list(chain.from_iterable(perms))] *)
Definition chain (perms : list (nat * nat)) : list nat :=
  flat_map (λ perm, [fst perm; snd perm]) perms.

(** [i, j = sorted(perm)] *)
Definition sorted (perm : nat * nat) : nat * nat :=
  if snd perm <? fst perm then (snd perm, fst perm) else (fst perm, snd perm).

(** The local variables the [for] loop updates. *)
Record Locals := {
  permuted : list val;
  apply : list bool;
  min_apply : option Key;
  min_not_apply : option Key
}.

(** The local variables before the first round (lines 222-225). *)
Definition initial (indices : list val) : Locals :=
  {| permuted := indices; apply := []; min_apply := None;
     min_not_apply := None |}.

(** [m is None or k < m] *)
Definition is_None_or_lt (k : Key) (m : option Key) : bool :=
  match m with
  | None => true
  | Some m' => key_ltb k m'
  end.

(** One round of the loop (lines 227-239); [None] is the [return S.Zero]. *)
Definition loop_body (indices : list val) (factor : Z) (st : Locals)
    (perm : nat * nat) : Outcome (option Locals) :=
  let '(i, j) := sorted perm in
  p <- getitem indices i ;
  q <- getitem indices j ;  (* p occurs before q *)
  if bool_decide (factor = (-1)%Z) && bool_decide (p = q) then Return None
  else
    let p_val := _sort_canonical p in
    let q_val := _sort_canonical q in
    let st' :=
      if key_ltb q_val p_val then
        {| permuted := permuted st;
           apply := apply st ++ [true];
           min_apply :=
             if is_None_or_lt q_val (min_apply st) then Some q_val
             else min_apply st;
           min_not_apply := min_not_apply st |}
      else
        {| permuted := permuted st;
           apply := apply st;
           min_apply := min_apply st;
           min_not_apply :=
             if is_None_or_lt q_val (min_not_apply st) then Some p_val
             else min_not_apply st |} in
    Return (Some {| permuted := <[j := p]> (<[i := q]> (permuted st'));
                    apply := apply st';
                    min_apply := min_apply st';
                    min_not_apply := min_not_apply st' |}).

Fixpoint loop (indices : list val) (factor : Z) (perms : list (nat * nat))
    (st : Locals) : Outcome (option Locals) :=
  match perms with
  | [] => Return (Some st)
  | perm :: rest =>
      r <- loop_body indices factor st perm ;
      match r with
      | None => Return None
      | Some st' => loop indices factor rest st'
      end
  end.

(** [min_apply < min_not_apply]: a tuple does not compare with [None]. *)
Definition tracked_lt (a b : option Key) : Outcome bool :=
  match a, b with
  | Some x, Some y => Return (key_ltb x y)
  | _, _ => Raise TypeError
  end.

(** Lines 240-246: the index sequence to store and [attach_minus].
    [len(apply) >= len(perms) / 2] is a comparison with a true quotient:
    twice the one length is at least the other. *)
Definition resolve (indices : list val) (perms : list (nat * nat))
    (factor : Z) (st : Locals) : Outcome (list val * bool) :=
  if bool_decide (length (apply st) = length perms) then
    Return (permuted st, bool_decide (factor = (-1)%Z))
  else
    go <- (if bool_decide (length perms ≤ 2 * length (apply st))
           then tracked_lt (min_apply st) (min_not_apply st)
           else Return false) ;
    if go then Return (permuted st, bool_decide (factor = (-1)%Z))
    else Return (indices, false).

Definition __new__ (symbol : string) (indices : list val)
    (perms : list (nat * nat)) (factor : Z) : Outcome (Signed Tensor) :=
  (* ensure that we have no intersecting permutations *)
  let idx := chain perms in
  if bool_decide (length idx ≠ size (list_to_set idx : gset nat)) then
    Raise (NotImplementedError IntersectingPermutations)
  else if bool_decide (factor ∉ [1%Z; (-1)%Z]) then
    Raise (Inputerror InvalidFactor)
  else
    r <- loop indices factor perms (initial indices) ;
    match r with
    | None => Return S_Zero
    | Some st =>
        '(indices, attach_minus) <- resolve indices perms factor st ;
        let t := {| symbol := symbol; indices := indices; perms := perms;
                    factor := factor |} in
        if attach_minus then Return (Minus t) else Return (Plus t)
    end.

(** The property [sym]: the tuple of [self.args[2:]], the stored
    permutations and factor. *)
Definition sym (self : Tensor) : list (nat * nat) * Z :=
  (perms self, factor self).

(** *** Notions the statements use *)

(** The global decision of lines 241-246 on the variables the loop left:
    whether [indices = permuted] is executed. *)
Definition batch_applied (perms : list (nat * nat)) (st : Locals) : bool :=
  bool_decide (length (apply st) = length perms)
  || (bool_decide (length perms ≤ 2 * length (apply st))
      && match min_apply st, min_not_apply st with
         | Some x, Some y => key_ltb x y
         | _, _ => false
         end).

(** A pair is marked "apply" when the later index has the smaller key. *)
Definition marked_apply (indices : list val) (perm : nat * nat) : bool :=
  match indices !! fst (sorted perm), indices !! snd (sorted perm) with
  | Some p, Some q => key_ltb (_sort_canonical q) (_sort_canonical p)
  | _, _ => false
  end.

(** The keys of the earlier-position indices of the pairs marked "skip". *)
Definition skip_keys (indices : list val) (perms : list (nat * nat))
    : list Key :=
  omap (λ perm, if marked_apply indices perm then None
                else _sort_canonical <$> indices !! fst (sorted perm)) perms.

(** Every pair of [perms] is exchanged in [stored], and the positions
    outside the pairs are as in [indices]. *)
Definition every_pair_swapped (indices stored : list val)
    (perms : list (nat * nat)) : Prop :=
  (∀ perm, perm ∈ perms →
     stored !! fst perm = indices !! snd perm
     ∧ stored !! snd perm = indices !! fst perm)
  ∧ (∀ k, k ∉ chain perms → stored !! k = indices !! k)
  ∧ length stored = length indices.

(** What the loop keeps true of the keys it tracks, after the pairs [seen]. *)
Definition tracked (seen : list (nat * nat)) (st : Locals) : Prop :=
  length (apply st) ≤ length seen
  ∧ (apply st ≠ [] → is_Some (min_apply st))
  ∧ (length (apply st) < length seen → is_Some (min_not_apply st)).

(** "When the batch is applied, exactly the pairs marked apply are swapped
    in the stored sequence and the pairs marked skip stay in place", for one
    call of the constructor. *)
Definition only_marked_pairs_swapped (name : string) (given : list val)
    (pairs : list (nat * nat)) (sign : Z) : Prop :=
  ∀ r t st,
    __new__ name given pairs sign = Return r → carried r = Some t →
    loop given sign pairs (initial given) = Return (Some st) →
    batch_applied pairs st = true →
    ∀ perm p q,
      perm ∈ pairs →
      given !! fst (sorted perm) = Some p →
      given !! snd (sorted perm) = Some q →
      if marked_apply given perm
      then indices t !! fst (sorted perm) = Some q
           ∧ indices t !! snd (sorted perm) = Some p
      else indices t !! fst (sorted perm) = Some p
           ∧ indices t !! snd (sorted perm) = Some q.

End WithHost.
Arguments Tensor {_}.
End SingleSymmetryTensor.

(** ** A host to run the code on

    Its other values are integer constants: they print in decimal, hash to
    themselves, and their differences and relationals are decided.  Two
    indices are provably equal when they are the same index; every other
    difference and relational is undecided. *)
Module Sample.

Definition sample_hash (v : Value Z) : Z :=
  match v with
  | VIndex x =>
      (2 * ident x + (if name_tail x is Some _ then 1 else 0))%Z
  | VOther n => n
  end.

Definition sample_is_zero (i j : Value Z) : option bool :=
  match i, j with
  | VOther a, VOther b => Some (a =? b)%Z
  | _, _ => if decide (i = j) then Some true else None
  end.

Definition sample_gt_zero (a b : Value Z) : option bool :=
  match a, b with
  | VOther x, VOther y => Some (0 <? x - y)%Z
  | _, _ => if decide (a = b) then Some false else None
  end.

Definition sample_lt_zero (a b : Value Z) : option bool :=
  match a, b with
  | VOther x, VOther y => Some (x - y <? 0)%Z
  | _, _ => if decide (a = b) then Some false else None
  end.

Global Instance host : Host := {|
  Other := Z;
  str := pretty;
  hash := sample_hash;
  diff_is_zero := sample_is_zero;
  diff_gt_zero := sample_gt_zero;
  diff_lt_zero := sample_lt_zero
|}.

(** Occupied, virtual and general indices without spin. *)
Definition occ (letter : ascii) (n : option Z) (id : Z) : Value Z :=
  VIndex {| space0 := "o"; spin := ""; name0 := letter; name_tail := n;
            ident := id |}.
Definition virt (letter : ascii) (n : option Z) (id : Z) : Value Z :=
  VIndex {| space0 := "v"; spin := ""; name0 := letter; name_tail := n;
            ident := id |}.
Definition general (letter : ascii) (n : option Z) (id : Z) : Value Z :=
  VIndex {| space0 := "g"; spin := ""; name0 := letter; name_tail := n;
            ident := id |}.

Definition i := occ "i" None 1.
Definition j := occ "j" None 2.
Definition a := virt "a" None 3.
Definition b := virt "b" None 4.
Definition p := general "p" None 5.
(** [i3], [i4], ... *)
Definition i_ (n : Z) : Value Z := occ "i" (Some n) (10 + n).

(** The index sequence [i5 i6 i3 i7 i10 i4 i11 i8] under the pairs
    [(0,1) (2,3) (4,5) (6,7)]: two pairs are marked skip, two apply. *)
Definition eight : list val :=
  [i_ 5; i_ 6; i_ 3; i_ 7; i_ 10; i_ 4; i_ 11; i_ 8].
Definition four_pairs : list (nat * nat) := [(0, 1); (2, 3); (4, 5); (6, 7)].

(** [(j, i, a, b)] under the pairs [(0,1) (2,3)], and what the constructor
    stores for it. *)
Definition mixed : list val := [j; i; a; b].
Definition two_pairs : list (nat * nat) := [(0, 1); (2, 3)].
Definition mixed_stored : SingleSymmetryTensor.Tensor :=
  {| SingleSymmetryTensor.symbol := "u";
     SingleSymmetryTensor.indices := [i; j; b; a];
     SingleSymmetryTensor.perms := two_pairs;
     SingleSymmetryTensor.factor := 1 |}.

(** The tensor stored for virtual [(a, b)] over occupied [(i, j)] with
    bra/ket symmetry [+1]. *)
Definition oovv : AntiSymmetricTensor.Tensor :=
  {| AntiSymmetricTensor.symbol := "t";
     AntiSymmetricTensor.upper := [i; j];
     AntiSymmetricTensor.lower := [a; b];
     AntiSymmetricTensor.bra_ket_sym := 1 |}.

(** The tensor stored for virtual [(a, b)] over occupied [(i, j)] without
    bra/ket symmetry. *)
Definition vvoo : AntiSymmetricTensor.Tensor :=
  {| AntiSymmetricTensor.symbol := "t";
     AntiSymmetricTensor.upper := [a; b];
     AntiSymmetricTensor.lower := [i; j];
     AntiSymmetricTensor.bra_ket_sym := 0 |}.

(** What the constructor stores for [(j, i, b, a)] under the pairs
    [(0,1) (2,3)], and for [(j, i)] under the pair [(0,1)]. *)
Definition ordered_stored : SingleSymmetryTensor.Tensor :=
  {| SingleSymmetryTensor.symbol := "u";
     SingleSymmetryTensor.indices := [i; j; a; b];
     SingleSymmetryTensor.perms := two_pairs;
     SingleSymmetryTensor.factor := 1 |}.
Definition pair_stored : SingleSymmetryTensor.Tensor :=
  {| SingleSymmetryTensor.symbol := "u";
     SingleSymmetryTensor.indices := [i; j];
     SingleSymmetryTensor.perms := [(0, 1)];
     SingleSymmetryTensor.factor := 1 |}.

End Sample.

(** * Properties *)

(** ** Orders *)

Lemma lex_Eq c1 c2 : lex c1 c2 = Eq ↔ c1 = Eq ∧ c2 = Eq.
Proof. destruct c1; simpl; intuition congruence. Qed.

Lemma lex_Lt c1 c2 : lex c1 c2 = Lt ↔ c1 = Lt ∨ (c1 = Eq ∧ c2 = Lt).
Proof. destruct c1; simpl; intuition congruence. Qed.

Lemma lex_opp c1 c2 : CompOpp (lex c1 c2) = lex (CompOpp c1) (CompOpp c2).
Proof. by destruct c1. Qed.

Lemma Z_total_cmp : total_cmp Z.compare.
Proof.
  split.
  - intros x y. apply Z.compare_eq_iff.
  - intros x y. apply Z.compare_antisym.
  - intros x y z. rewrite !Z.compare_lt_iff. lia.
Qed.

Lemma ascii_total_cmp : total_cmp Ascii.compare.
Proof.
  split; unfold Ascii.compare.
  - intros x y. rewrite N.compare_eq_iff. split; [|by intros ->].
    intros E. rewrite <- (ascii_N_embedding x), <- (ascii_N_embedding y).
    by rewrite E.
  - intros x y. apply N.compare_antisym.
  - intros x y z. rewrite !N.compare_lt_iff. lia.
Qed.

Lemma lex_pair_total_cmp {A B : Type} (ca : A → A → comparison)
    (cb : B → B → comparison) :
  total_cmp ca → total_cmp cb → total_cmp (lex_pair ca cb).
Proof.
  intros Ha Hb. split; unfold lex_pair.
  - intros [a1 b1] [a2 b2]. simpl. rewrite lex_Eq, (cmp_eq _ Ha), (cmp_eq _ Hb).
    split; [intros [-> ->]; done | intros [= -> ->]; done].
  - intros [a1 b1] [a2 b2]. simpl.
    by rewrite lex_opp, (cmp_opp _ Ha a1 a2), (cmp_opp _ Hb b1 b2).
  - intros [a1 b1] [a2 b2] [a3 b3]. simpl. rewrite !lex_Lt.
    intros [H1 | [H1 H1']] [H2 | [H2 H2']].
    + left. eapply (cmp_trans _ Ha); eauto.
    + apply (cmp_eq _ Ha) in H2 as <-. by left.
    + apply (cmp_eq _ Ha) in H1 as ->. by left.
    + apply (cmp_eq _ Ha) in H1 as ->. right. split; [done|].
      eapply (cmp_trans _ Hb); eauto.
Qed.

Lemma list_total_cmp {A : Type} (cmp : A → A → comparison) :
  total_cmp cmp → total_cmp (list_compare cmp).
Proof.
  intros Hc. split.
  - intros l1. induction l1 as [|x l1 IH]; intros [|y l2]; simpl; try done.
    rewrite lex_Eq, (cmp_eq _ Hc), IH. split; [intros [-> ->]|intros [= -> ->]]; done.
  - intros l1. induction l1 as [|x l1 IH]; intros [|y l2]; simpl; try done.
    by rewrite lex_opp, (cmp_opp _ Hc x y), IH.
  - intros l1. induction l1 as [|x l1 IH]; intros [|y l2] [|z l3]; simpl; try done.
    rewrite !lex_Lt. intros [H1 | [H1 H1']] [H2 | [H2 H2']].
    + left. eapply (cmp_trans _ Hc); eauto.
    + apply (cmp_eq _ Hc) in H2 as <-. by left.
    + apply (cmp_eq _ Hc) in H1 as ->. by left.
    + apply (cmp_eq _ Hc) in H1 as ->. right. split; [done|]. eauto.
Qed.

Lemma string_compare_as_list s1 s2 :
  String.compare s1 s2
  = list_compare Ascii.compare (list_ascii_of_string s1) (list_ascii_of_string s2).
Proof.
  revert s2. induction s1 as [|c s1 IH]; intros [|d s2]; simpl; try done.
  rewrite IH. by destruct (Ascii.compare c d).
Qed.

Lemma string_total_cmp : total_cmp String.compare.
Proof.
  pose proof (list_total_cmp _ ascii_total_cmp) as Hl.
  split.
  - intros x y. rewrite string_compare_as_list, (cmp_eq _ Hl).
    split; [|by intros ->].
    intros E. rewrite <- (string_of_list_ascii_of_string x),
      <- (string_of_list_ascii_of_string y). by rewrite E.
  - intros x y. rewrite !string_compare_as_list. apply (cmp_opp _ Hl).
  - intros x y z. rewrite !string_compare_as_list. apply (cmp_trans _ Hl).
Qed.

Lemma cmp_refl {A} (cmp : A → A → comparison) (Hc : total_cmp cmp) x :
  cmp x x = Eq.
Proof. by apply (cmp_eq _ Hc). Qed.

Lemma cmp_Gt {A} (cmp : A → A → comparison) (Hc : total_cmp cmp) x y :
  cmp x y = Gt ↔ cmp y x = Lt.
Proof. rewrite (cmp_opp _ Hc x y). destruct (cmp x y); simpl; intuition congruence. Qed.

Lemma key_total_cmp : total_cmp key_compare.
Proof.
  pose proof (lex_pair_total_cmp _ _ ascii_total_cmp
    (lex_pair_total_cmp _ _ string_total_cmp
      (lex_pair_total_cmp _ _ Z_total_cmp
        (lex_pair_total_cmp _ _ ascii_total_cmp Z_total_cmp)))) as HI.
  pose proof (lex_pair_total_cmp _ _ string_total_cmp Z_total_cmp) as HO.
  split.
  - intros [sp1 spn1 n1 c1 h1|s1 h1] [sp2 spn2 n2 c2 h2|s2 h2]; simpl; try done.
    + rewrite (cmp_eq _ HI (sp1, (spn1, (n1, (c1, h1)))) (sp2, (spn2, (n2, (c2, h2))))).
      split; [intros [= -> -> -> -> ->]|intros [= -> -> -> -> ->]]; done.
    + rewrite (cmp_eq _ HO (s1, h1) (s2, h2)).
      split; [intros [= -> ->]|intros [= -> ->]]; done.
  - intros [sp1 spn1 n1 c1 h1|s1 h1] [sp2 spn2 n2 c2 h2|s2 h2]; simpl; try done.
    + apply (cmp_opp _ HI (sp1, (spn1, (n1, (c1, h1)))) (sp2, (spn2, (n2, (c2, h2))))).
    + apply (cmp_opp _ HO (s1, h1) (s2, h2)).
  - intros [sp1 spn1 n1 c1 h1|s1 h1] [sp2 spn2 n2 c2 h2|s2 h2]
      [sp3 spn3 n3 c3 h3|s3 h3]; simpl; try done.
    + apply (cmp_trans _ HI (sp1, (spn1, (n1, (c1, h1))))
        (sp2, (spn2, (n2, (c2, h2)))) (sp3, (spn3, (n3, (c3, h3))))).
    + apply (cmp_trans _ HO (s1, h1) (s2, h2) (s3, h3)).
Qed.

(** ** The permutation sort *)

(** The quotient and remainder of [n] by two, for [lia]. *)
Ltac euclid2 n :=
  pose proof (Nat.div_mod_eq n 2);
  pose proof (Nat.mod_upper_bound n 2 ltac:(lia)).

Section sort.
Context {A : Type} (key : A → Key).
Implicit Types (x y : A) (l : list A).

Local Abbreviation R := (key_lt key).

Lemma key_lt_trans x y z : R x y → R y z → R x z.
Proof. apply (cmp_trans _ key_total_cmp). Qed.

Lemma key_lt_irrefl x : ¬ R x x.
Proof. unfold key_lt. by rewrite (cmp_refl _ key_total_cmp). Qed.

Lemma key_lt_asym x y : R x y → R y x → False.
Proof. intros H1 H2. eapply key_lt_irrefl, key_lt_trans; eauto. Qed.

Lemma key_lt_ne x y : R x y → key x ≠ key y.
Proof.
  unfold key_lt. intros H E. apply (cmp_eq _ key_total_cmp) in E. congruence.
Qed.

Lemma key_compare_cases x y : R x y ∨ key x = key y ∨ R y x.
Proof.
  unfold key_lt. destruct (key_compare (key x) (key y)) eqn:E.
  - right; left. by apply (cmp_eq _ key_total_cmp).
  - by left.
  - right; right. by apply (cmp_Gt _ key_total_cmp) in E.
Qed.

Lemma below_cons x y l :
  below key x (y :: l) = (if decide (R y x) then 1 else 0) + below key x l.
Proof. unfold below. rewrite filter_cons. by destruct (decide (R y x)). Qed.

Lemma above_cons x y l :
  above key x (y :: l) = (if decide (R x y) then 1 else 0) + above key x l.
Proof. unfold above. rewrite filter_cons. by destruct (decide (R x y)). Qed.

Lemma below_app x l1 l2 : below key x (l1 ++ l2) = below key x l1 + below key x l2.
Proof. unfold below. by rewrite filter_app, length_app. Qed.

Lemma below_perm x l1 l2 : l1 ≡ₚ l2 → below key x l1 = below key x l2.
Proof. intros Hp. unfold below. by rewrite Hp. Qed.

Lemma below_none x l : Forall (R x) l → below key x l = 0.
Proof.
  induction 1 as [|y l Hy _ IH]; [done|].
  rewrite below_cons, IH. destruct (decide (R y x)); [|done].
  destruct (key_lt_asym x y); done.
Qed.

(** Every entry is below or above an entry whose key does not occur. *)
Lemma below_above x l :
  key x ∉ key <$> l → below key x l + above key x l = length l.
Proof.
  induction l as [|y l IH]; [done|].
  rewrite fmap_cons, not_elem_of_cons. intros [Hne Hl].
  rewrite below_cons, above_cons. simpl. specialize (IH Hl).
  destruct (key_compare_cases x y) as [Hc|[Hc|Hc]]; [|done|].
  - destruct (decide (R y x)) as [Hyx|_]; [destruct (key_lt_asym x y); done|].
    destruct (decide (R x y)); [lia|done].
  - destruct (decide (R x y)) as [Hxy|_]; [destruct (key_lt_asym x y); done|].
    destruct (decide (R y x)); [lia|done].
Qed.

Lemma insert_fermion_fresh x l :
  StronglySorted R l → key x ∉ key <$> l →
  ∃ r, insert_fermion key x l = Return (r, below key x l)
       ∧ r ≡ₚ x :: l ∧ StronglySorted R r.
Proof.
  induction l as [|y l IH]; intros Hs Hx.
  - exists [x]. repeat split; [done|]. repeat constructor.
  - rewrite fmap_cons, not_elem_of_cons in Hx. destruct Hx as [Hne Hl].
    pose proof Hs as Hs'. apply StronglySorted_inv in Hs' as [Hsl Hall].
    simpl. destruct (key_compare_cases x y) as [Hc|[Hc|Hc]]; [|done|].
    + rewrite Hc. exists (x :: y :: l). split; [|split; [done|]].
      * rewrite below_none; [done|]. constructor; [done|].
        eapply Forall_impl; [exact Hall|]. intros z Hz. by eapply key_lt_trans.
      * constructor; [done|]. constructor; [done|].
        eapply Forall_impl; [exact Hall|]. intros z Hz. by eapply key_lt_trans.
    + assert (key_compare (key x) (key y) = Gt) as ->
        by by apply (cmp_Gt _ key_total_cmp).
      destruct (IH Hsl Hl) as (r & -> & Hp & Hr). simpl.
      exists (y :: r). split; [|split].
      * rewrite below_cons. by destruct (decide (R y x)).
      * rewrite Hp. apply perm_swap.
      * constructor; [done|]. rewrite Hp. by constructor.
Qed.

Lemma insert_fermion_dup x l :
  StronglySorted R l → key x ∈ key <$> l →
  insert_fermion key x l = Raise ViolationOfPauliPrinciple.
Proof.
  induction l as [|y l IH]; intros Hs Hx.
  - by apply elem_of_nil in Hx.
  - pose proof Hs as Hs'. apply StronglySorted_inv in Hs' as [Hsl Hall].
    simpl. destruct (key_compare_cases x y) as [Hc|[Hc|Hc]].
    + exfalso. rewrite fmap_cons, elem_of_cons in Hx.
      destruct Hx as [Hx|Hx]; [by apply key_lt_ne in Hc|].
      apply list_elem_of_fmap in Hx as (z & Hz & Hin).
      rewrite Forall_forall in Hall. specialize (Hall z Hin).
      assert (R x z) as Hxz by by eapply key_lt_trans.
      by apply key_lt_ne in Hxz.
    + apply (cmp_eq _ key_total_cmp) in Hc. by rewrite Hc.
    + pose proof Hc as Hne%key_lt_ne.
      assert (key_compare (key x) (key y) = Gt) as ->
        by by apply (cmp_Gt _ key_total_cmp).
      rewrite fmap_cons, elem_of_cons in Hx. destruct Hx as [Hx|Hx]; [done|].
      by rewrite (IH Hsl Hx).
Qed.

Lemma sort_fermions_nodup l :
  NoDup (key <$> l) →
  ∃ r, _sort_anticommuting_fermions key l = Return (r, inversions key l)
       ∧ r ≡ₚ l ∧ StronglySorted R r.
Proof.
  induction l as [|x l IH]; intros Hnd.
  - exists []. repeat split; [done|constructor].
  - rewrite fmap_cons in Hnd. apply NoDup_cons in Hnd as [Hx Hnd].
    destruct (IH Hnd) as (r & Hr & Hp & Hs). simpl. rewrite Hr. simpl.
    destruct (insert_fermion_fresh x r Hs) as (r' & Hr' & Hp' & Hs').
    { by rewrite Hp. }
    rewrite Hr'. simpl. exists r'. split; [|split; [|done]].
    + rewrite (below_perm x r l Hp). do 2 f_equal. lia.
    + by rewrite Hp', Hp.
Qed.

Lemma sort_fermions_dup l :
  ¬ NoDup (key <$> l) →
  _sort_anticommuting_fermions key l = Raise ViolationOfPauliPrinciple.
Proof.
  induction l as [|x l IH]; intros Hnd.
  - destruct Hnd. constructor.
  - simpl. destruct (decide (NoDup (key <$> l))) as [Hl|Hl].
    + destruct (sort_fermions_nodup l Hl) as (r & -> & Hp & Hs). simpl.
      rewrite insert_fermion_dup; [done|done|].
      rewrite Hp. destruct (decide (key x ∈ key <$> l)); [done|].
      destruct Hnd. rewrite fmap_cons. by constructor.
    + by rewrite (IH Hl).
Qed.

Lemma sort_fermions_sorted l :
  StronglySorted R l → _sort_anticommuting_fermions key l = Return (l, 0).
Proof.
  induction 1 as [|x l Hs IH Hall]; [done|].
  simpl. rewrite IH. simpl. destruct l as [|y l]; [done|].
  simpl. apply Forall_cons in Hall as [Hxy _]. by rewrite Hxy.
Qed.

Lemma sorted_perm_eq l1 l2 :
  StronglySorted R l1 → StronglySorted R l2 → l1 ≡ₚ l2 → l1 = l2.
Proof.
  apply StronglySorted_unique_strong.
  intros x y _ _ Hxy Hyx. destruct (key_lt_asym x y); done.
Qed.

Lemma sorted_nodup_keys l : StronglySorted R l → NoDup (key <$> l).
Proof.
  induction 1 as [|x l Hs IH Hall]; [constructor|].
  rewrite fmap_cons. constructor; [|done].
  intros (z & Hz & Hin)%list_elem_of_fmap.
  rewrite Forall_forall in Hall. by apply Hall, key_lt_ne in Hin.
Qed.

(** Sorting two orderings of the same entries gives the same sequence. *)
Lemma sort_fermions_perm l1 l2 r1 n1 :
  l1 ≡ₚ l2 → _sort_anticommuting_fermions key l1 = Return (r1, n1) →
  _sort_anticommuting_fermions key l2 = Return (r1, inversions key l2)
  ∧ n1 = inversions key l1.
Proof.
  intros Hp H1. destruct (decide (NoDup (key <$> l1))) as [Hnd|Hnd].
  - destruct (sort_fermions_nodup l1 Hnd) as (r & Hr & Hpr & Hs).
    rewrite Hr in H1. injection H1 as -> <-.
    assert (NoDup (key <$> l2)) as Hnd2 by by rewrite <- Hp.
    destruct (sort_fermions_nodup l2 Hnd2) as (r2 & Hr2 & Hpr2 & Hs2).
    split; [|done]. rewrite Hr2. do 2 f_equal.
    apply sorted_perm_eq; [done..|]. by rewrite Hpr, Hpr2.
  - by rewrite (sort_fermions_dup l1 Hnd) in H1.
Qed.

(** *** Inversions and exchanges *)

Lemma inversions_app_perm l X X' :
  X ≡ₚ X' →
  inversions key (l ++ X) + inversions key X'
  = inversions key (l ++ X') + inversions key X.
Proof.
  intros Hp. induction l as [|a l IH]; simpl; [lia|].
  rewrite (below_perm a (l ++ X) (l ++ X')) by by rewrite Hp. lia.
Qed.

Lemma inversions_middle x y l2 l3 :
  inversions key (l2 ++ y :: l3) + above key x l2 + below key x l3
  = inversions key (l2 ++ x :: l3) + above key y l2 + below key y l3.
Proof.
  induction l2 as [|z l2 IH]; simpl.
  - change (above key x []) with 0. change (above key y []) with 0. lia.
  - rewrite !below_app, !below_cons, !above_cons. lia.
Qed.

Lemma inversions_exchange l1 x l2 y l3 :
  NoDup (key <$> (l1 ++ x :: l2 ++ y :: l3)) →
  (inversions key (l1 ++ x :: l2 ++ y :: l3)
   + inversions key (l1 ++ y :: l2 ++ x :: l3)) mod 2 = 1.
Proof.
  intros Hnd.
  assert (x :: l2 ++ y :: l3 ≡ₚ y :: l2 ++ x :: l3) as Hp.
  { rewrite <- !Permutation_middle. apply perm_swap. }
  pose proof (inversions_app_perm l1 _ _ Hp) as H1.
  rewrite fmap_app in Hnd. apply NoDup_app in Hnd as (_ & _ & Hnd).
  rewrite fmap_cons in Hnd. apply NoDup_cons in Hnd as [Hx Hnd].
  rewrite fmap_app, fmap_cons in Hx, Hnd.
  apply NoDup_app in Hnd as (_ & Hy & _).
  assert (key x ∉ key <$> l2) as Hx2 by (rewrite elem_of_app in Hx; tauto).
  assert (key y ∉ key <$> l2) as Hy2.
  { intros Hin. apply (Hy _ Hin). left. }
  assert (key x ≠ key y) as Hxy.
  { intros E. apply Hx. rewrite elem_of_app, elem_of_cons. auto. }
  pose proof (below_above x l2 Hx2) as Bx.
  pose proof (below_above y l2 Hy2) as By.
  pose proof (inversions_middle x y l2 l3) as Hm.
  simpl in H1. rewrite !below_app, !below_cons in H1.
  euclid2 (inversions key (l1 ++ x :: l2 ++ y :: l3)
           + inversions key (l1 ++ y :: l2 ++ x :: l3)).
  destruct (key_compare_cases x y) as [Hc|[Hc|Hc]]; [|done|].
  - destruct (decide (R y x)) as [Hyx|_]; [destruct (key_lt_asym x y); done|].
    destruct (decide (R x y)); [lia|done].
  - destruct (decide (R x y)) as [Hyx|_]; [destruct (key_lt_asym x y); done|].
    destruct (decide (R y x)); [lia|done].
Qed.
End sort.

(** ** Exchanging two positions *)

Section exchange.
Context {A : Type}.
Implicit Types (l : list A) (x y : A).

Lemma exchange_comm a b l : a ≠ b → exchange a b l = exchange b a l.
Proof.
  intros Hab. unfold exchange.
  destruct (l !! a) as [x|] eqn:Ha, (l !! b) as [y|] eqn:Hb; try done.
  by rewrite list_insert_insert_ne.
Qed.

Lemma exchange_split a b l x y :
  a < b → l !! a = Some x → l !! b = Some y →
  ∃ l1 l2 l3, l = l1 ++ x :: l2 ++ y :: l3
              ∧ exchange a b l = l1 ++ y :: l2 ++ x :: l3.
Proof.
  intros Hab Ha Hb. unfold exchange. rewrite Ha, Hb.
  apply list_elem_of_split_length in Ha as (l1 & l' & -> & ->).
  rewrite lookup_app_r in Hb by lia.
  destruct (b - length l1) as [|k] eqn:Ek; [lia|]. simpl in Hb.
  apply list_elem_of_split_length in Hb as (l2 & l3 & -> & ->).
  exists l1, l2, l3. split; [done|].
  rewrite insert_app_r_alt by lia. rewrite Nat.sub_diag. simpl.
  rewrite insert_app_r_alt by lia. rewrite Ek. simpl.
  rewrite insert_app_r_alt by lia. rewrite Nat.sub_diag. done.
Qed.

Lemma exchange_perm a b l : exchange a b l ≡ₚ l.
Proof.
  assert (∀ a b, a < b → exchange a b l ≡ₚ l) as Hlt.
  { clear a b. intros a b Hab. unfold exchange.
    destruct (l !! a) as [x|] eqn:Ha, (l !! b) as [y|] eqn:Hb; try done.
    destruct (exchange_split a b l x y Hab Ha Hb) as (l1 & l2 & l3 & -> & E).
    unfold exchange in E. rewrite Ha, Hb in E. rewrite E.
    apply Permutation_app_head. rewrite <- !Permutation_middle. apply perm_swap. }
  destruct (decide (a = b)) as [->|Hne].
  - unfold exchange. destruct (l !! b) as [x|] eqn:Hb; [|done].
    by rewrite list_insert_insert_eq, list_insert_id.
  - destruct (decide (a < b)); [by apply Hlt|].
    rewrite exchange_comm by done. apply Hlt. lia.
Qed.
End exchange.

Section sort_exchange.
Context {A : Type} (key : A → Key).

Lemma sort_fermions_raises l e :
  _sort_anticommuting_fermions key l = Raise e → e = ViolationOfPauliPrinciple.
Proof.
  destruct (decide (NoDup (key <$> l))) as [Hnd|Hnd].
  - destruct (sort_fermions_nodup key l Hnd) as (r & -> & _). done.
  - rewrite (sort_fermions_dup key l Hnd). by intros [= <-].
Qed.

Lemma sort_fermions_total l : _sort_anticommuting_fermions key l ≠ OutOfFuel.
Proof.
  destruct (decide (NoDup (key <$> l))) as [Hnd|Hnd].
  - destruct (sort_fermions_nodup key l Hnd) as (r & -> & _). done.
  - by rewrite (sort_fermions_dup key l Hnd).
Qed.

Lemma sort_fermions_duplicate l :
  has_duplicate l →
  _sort_anticommuting_fermions key l = Raise ViolationOfPauliPrinciple.
Proof.
  intros (a & b & x & Hab & Ha & Hb). apply sort_fermions_dup.
  intros Hnd. apply Hab. eapply NoDup_lookup; [exact Hnd| |].
  - by rewrite list_lookup_fmap, Ha.
  - by rewrite list_lookup_fmap, Hb.
Qed.

(** Exchanging two entries keeps the sorted sequence and flips the parity
    of the count; a sort that raises keeps raising. *)
Lemma sort_fermions_exchange a b l :
  a ≠ b → a < length l → b < length l →
  match _sort_anticommuting_fermions key l with
  | Return (r, n) =>
      ∃ n', _sort_anticommuting_fermions key (exchange a b l) = Return (r, n')
            ∧ (n + n') mod 2 = 1
  | other => _sort_anticommuting_fermions key (exchange a b l) = other
  end.
Proof.
  assert (∀ a b, a < b → b < length l →
    NoDup (key <$> l) →
    (inversions key l + inversions key (exchange a b l)) mod 2 = 1) as Hflip.
  { clear a b. intros a b Hab Hb Hnd.
    destruct (lookup_lt_is_Some_2 l a) as [x Hx]; [lia|].
    destruct (lookup_lt_is_Some_2 l b) as [y Hy]; [lia|].
    destruct (exchange_split a b l x y Hab Hx Hy) as (l1 & l2 & l3 & -> & ->).
    by apply inversions_exchange. }
  intros Hab Ha Hb.
  destruct (decide (NoDup (key <$> l))) as [Hnd|Hnd].
  - destruct (sort_fermions_nodup key l Hnd) as (r & Hr & Hp & Hs).
    rewrite Hr. exists (inversions key (exchange a b l)). split.
    + eapply sort_fermions_perm; [|exact Hr]. symmetry. apply exchange_perm.
    + destruct (decide (a < b)); [by apply Hflip|].
      rewrite exchange_comm by done. apply Hflip; [lia|done..].
  - rewrite (sort_fermions_dup key l Hnd). apply sort_fermions_dup.
    by rewrite (exchange_perm a b l).
Qed.
End sort_exchange.

(** ** [len(idx) != len(set(idx))] *)

Lemma size_list_to_set_le (l : list nat) :
  size (list_to_set l : gset nat) ≤ length l.
Proof.
  induction l as [|x l IH]; [done|].
  rewrite list_to_set_cons, size_union_alt, size_singleton. simpl.
  assert (size (list_to_set l ∖ {[x]} : gset nat) ≤ size (list_to_set l : gset nat)).
  { apply subseteq_size. intros y [Hy _]%elem_of_difference. done. }
  lia.
Qed.

Lemma size_list_to_set_NoDup (l : list nat) :
  length l = size (list_to_set l : gset nat) ↔ NoDup l.
Proof.
  split; [|intros Hnd; by rewrite size_list_to_set].
  induction l as [|x l IH]; [constructor|].
  rewrite list_to_set_cons. simpl. intros Hlen.
  pose proof (size_list_to_set_le l) as Hle.
  destruct (decide (x ∈ l)) as [Hin|Hin].
  - assert ({[x]} ∪ list_to_set l = (list_to_set l : gset nat)) as E.
    { apply subseteq_union_1_L. intros y ->%elem_of_singleton.
      by apply elem_of_list_to_set. }
    rewrite E in Hlen. lia.
  - constructor; [done|]. apply IH.
    rewrite size_union, size_singleton in Hlen; [lia|].
    intros y ->%elem_of_singleton Hy. by apply elem_of_list_to_set in Hy.
Qed.

(** ** AntiSymmetricTensor *)

Module AntiSymmetricTensorFacts.
Import AntiSymmetricTensor.
Section facts.
Context `{Host}.
Implicit Types (upper lower : list val) (t : Tensor).

Local Abbreviation K := _sort_canonical.

Lemma comprehension_Index {B} (f : val → Outcome B) (g : Index → B) l :
  (∀ x, f (VIndex x) = Return (g x)) →
  forallb is_Index l = true →
  ∃ r, comprehension f l = Return r ∧ length r = length l.
Proof.
  intros Hf. induction l as [|[x|o] l IH]; simpl; intros Hall; [by exists []| |done].
  destruct (IH Hall) as (r & -> & Hlen). rewrite Hf. simpl.
  exists (g x :: r). simpl. by rewrite Hlen.
Qed.

Lemma space_string_Index l :
  forallb is_Index l = true → ∃ s, space_string l = Return s.
Proof.
  intros Hall. unfold space_string, fmap_outcome.
  destruct (comprehension_Index get_space0 space0 l) as (r & -> & _); [done..|].
  by eexists.
Qed.

Lemma names_Index l : forallb is_Index l = true → ∃ r, names l = Return r.
Proof.
  intros Hall. unfold names.
  destruct (comprehension_Index get_name (λ x, (name_number x, name0 x)) l)
    as (r & -> & _); [done..|]. by eexists.
Qed.

Lemma space_string_constant c l :
  Forall (λ v, get_space0 v = Return c) l →
  space_string l = Return (string_of_list_ascii (replicate (length l) c)).
Proof.
  unfold space_string, fmap_outcome. induction 1 as [|v l Hv _ IH]; [done|].
  simpl. rewrite Hv. simpl.
  destruct (comprehension get_space0 l) as [r| |]; simpl in *; [|done..].
  by injection IH as ->.
Qed.

(** The bra/ket block adds its own sign to the one it is given. *)
Lemma bra_ket_block_shift upper lower s bks :
  bra_ket_block upper lower s bks
  = '(u, l, d) <- bra_ket_block upper lower 0 bks ; Return (u, l, s + d).
Proof.
  unfold bra_ket_block, bind.
  repeat case_match; simplify_eq/=; try done; repeat f_equal; lia.
Qed.

(** What the block returns: the two groups, swapped or not. *)
Lemma bra_ket_block_groups upper lower s bks u l s' :
  bra_ket_block upper lower s bks = Return (u, l, s') →
  (u = upper ∧ l = lower) ∨ (u = lower ∧ l = upper).
Proof.
  unfold bra_ket_block, bind.
  repeat case_match; simplify_eq/=; intros; simplify_eq; auto.
Qed.

Lemma string_ltb_total s1 s2 :
  s1 ≠ s2 → String.ltb s1 s2 = false → String.ltb s2 s1 = true.
Proof.
  unfold String.ltb. intros Hne.
  rewrite (cmp_opp _ string_total_cmp s1 s2).
  destruct (String.compare s1 s2) eqn:E; simpl; try done.
  by apply (cmp_eq _ string_total_cmp) in E.
Qed.

Lemma bra_ket_block_spaces upper lower s bks u l s' :
  bks ≠ 0%Z → forallb is_Index (upper ++ lower)%list = true →
  bra_ket_block upper lower s bks = Return (u, l, s') →
  ∃ space_u space_l space_u' space_l',
    space_string upper = Return space_u ∧ space_string lower = Return space_l
    ∧ space_string u = Return space_u' ∧ space_string l = Return space_l'
    ∧ (space_u' ≠ space_l' → String.ltb space_u' space_l' = true)
    ∧ (String.ltb space_l space_u = true → u = lower ∧ l = upper).
Proof.
  intros Hbks Hall. unfold bra_ket_block.
  rewrite Hall, bool_decide_true by done. simpl.
  rewrite forallb_app, andb_true_iff in Hall. destruct Hall as [Hu Hl].
  destruct (space_string_Index upper Hu) as (su & Esu).
  destruct (space_string_Index lower Hl) as (sl & Esl).
  destruct (bool_decide (bks ∉ [1%Z; (-1)%Z])); [done|].
  destruct (bool_decide (length upper ≠ length lower)); [done|].
  generalize (if bool_decide (bks = (-1)%Z) then s + 1 else s). intros n.
  rewrite Esu, Esl. simpl.
  destruct (String.ltb sl su) eqn:Elt.
  - intros [= <- <- <-]. exists su, sl, sl, su. by repeat split.
  - case_bool_decide as Eeq.
    + subst su.
      destruct (names_Index lower Hl) as (nl & ->).
      destruct (names_Index upper Hu) as (nu & ->). simpl.
      case_match; intros [= <- <- <-]; exists sl, sl, sl, sl;
        repeat split; try done; congruence.
    + intros [= <- <- <-]. exists su, sl, su, sl. repeat split; try done.
      * intros _. by apply string_ltb_total.
      * congruence.
      * congruence.
Qed.

(** [__new__] once both groups are sorted. *)
Lemma new_sorted symbol upper lower bks ru nu rl nl :
  _sort_anticommuting_fermions K upper = Return (ru, nu) →
  _sort_anticommuting_fermions K lower = Return (rl, nl) →
  __new__ symbol upper lower bks
  = '(u, l, d) <- bra_ket_block ru rl 0 bks ;
    let t := {| symbol := symbol; upper := u; lower := l; bra_ket_sym := bks |} in
    if bool_decide ((nu + d + nl) mod 2 ≠ 0) then Return (Minus t)
    else Return (Plus t).
Proof.
  intros Hu Hl. unfold __new__, sort_groups. rewrite Hu, Hl. simpl.
  rewrite bra_ket_block_shift.
  by destruct (bra_ket_block ru rl 0 bks) as [[[u l] d]| |].
Qed.

Lemma new_pauli_upper symbol upper lower bks :
  _sort_anticommuting_fermions K upper = Raise ViolationOfPauliPrinciple →
  __new__ symbol upper lower bks = Return S_Zero.
Proof. intros Hu. unfold __new__, sort_groups. by rewrite Hu. Qed.

Lemma new_pauli_lower symbol upper lower bks :
  _sort_anticommuting_fermions K lower = Raise ViolationOfPauliPrinciple →
  __new__ symbol upper lower bks = Return S_Zero.
Proof.
  intros Hl. unfold __new__, sort_groups. rewrite Hl.
  destruct (_sort_anticommuting_fermions K upper) as [[ru nu]|e|] eqn:Hu; simpl.
  - done.
  - by apply sort_fermions_raises in Hu as ->.
  - by apply sort_fermions_total in Hu.
Qed.

Lemma new_duplicate symbol upper lower bks :
  has_duplicate upper ∨ has_duplicate lower →
  __new__ symbol upper lower bks = Return S_Zero.
Proof.
  intros [Hd|Hd].
  - by apply new_pauli_upper, sort_fermions_duplicate.
  - by apply new_pauli_lower, sort_fermions_duplicate.
Qed.

Lemma parity_flip n n' m :
  (n + n') mod 2 = 1 →
  bool_decide ((n' + m) mod 2 ≠ 0) = negb (bool_decide ((n + m) mod 2 ≠ 0)).
Proof.
  intros Hp. euclid2 (n + n'). euclid2 (n' + m). euclid2 (n + m).
  repeat case_bool_decide; simpl; try done; lia.
Qed.

Lemma new_exchange_upper symbol upper lower bks a b :
  a ≠ b → a < length upper → b < length upper →
  __new__ symbol (exchange a b upper) lower bks
  = negated (__new__ symbol upper lower bks).
Proof.
  intros Hab Ha Hb.
  pose proof (sort_fermions_exchange K a b upper Hab Ha Hb) as Hex.
  destruct (_sort_anticommuting_fermions K upper) as [[ru nu]|e|] eqn:Hu.
  - destruct Hex as (nu' & Hu' & Hpar).
    destruct (_sort_anticommuting_fermions K lower) as [[rl nl]|e|] eqn:Hl.
    + rewrite (new_sorted _ _ _ _ _ _ _ _ Hu' Hl), (new_sorted _ _ _ _ _ _ _ _ Hu Hl).
      destruct (bra_ket_block ru rl 0 bks) as [[[u l] d]| |]; cbn [bind]; [|done..].
      rewrite <- !(Nat.add_assoc _ d nl), (parity_flip nu nu' (d + nl) Hpar).
      by destruct (bool_decide ((nu + (d + nl)) mod 2 ≠ 0)).
    + pose proof (sort_fermions_raises _ _ _ Hl) as ->.
      by rewrite !new_pauli_lower.
    + by apply sort_fermions_total in Hl.
  - pose proof (sort_fermions_raises _ _ _ Hu) as ->.
    by rewrite !new_pauli_upper.
  - by apply sort_fermions_total in Hu.
Qed.

Lemma new_exchange_lower symbol upper lower bks a b :
  a ≠ b → a < length lower → b < length lower →
  __new__ symbol upper (exchange a b lower) bks
  = negated (__new__ symbol upper lower bks).
Proof.
  intros Hab Ha Hb.
  pose proof (sort_fermions_exchange K a b lower Hab Ha Hb) as Hex.
  destruct (_sort_anticommuting_fermions K lower) as [[rl nl]|e|] eqn:Hl.
  - destruct Hex as (nl' & Hl' & Hpar).
    destruct (_sort_anticommuting_fermions K upper) as [[ru nu]|e|] eqn:Hu.
    + rewrite (new_sorted _ _ _ _ _ _ _ _ Hu Hl'), (new_sorted _ _ _ _ _ _ _ _ Hu Hl).
      destruct (bra_ket_block ru rl 0 bks) as [[[u l] d]| |]; cbn [bind]; [|done..].
      rewrite !(Nat.add_comm (nu + d)), (parity_flip nl nl' (nu + d) Hpar).
      by destruct (bool_decide ((nl + (nu + d)) mod 2 ≠ 0)).
    + pose proof (sort_fermions_raises _ _ _ Hu) as ->.
      by rewrite !new_pauli_upper.
    + by apply sort_fermions_total in Hu.
  - pose proof (sort_fermions_raises _ _ _ Hl) as ->.
    by rewrite !new_pauli_lower.
  - by apply sort_fermions_total in Hl.
Qed.

(** C6: exchanging the entries at two positions of the upper group, or of
    the lower group, negates what the constructor returns (an exception
    stays the same exception, zero stays zero) when the two entries are
    distinct; when they are equal the result is zero. *)
Theorem transposition_negates symbol upper lower bks a b x y :
  a ≠ b →
  (upper !! a = Some x → upper !! b = Some y →
     (x ≠ y → __new__ symbol (exchange a b upper) lower bks
              = negated (__new__ symbol upper lower bks))
     ∧ (x = y → __new__ symbol upper lower bks = Return S_Zero))
  ∧ (lower !! a = Some x → lower !! b = Some y →
     (x ≠ y → __new__ symbol upper (exchange a b lower) bks
              = negated (__new__ symbol upper lower bks))
     ∧ (x = y → __new__ symbol upper lower bks = Return S_Zero)).
Proof.
  intros Hab. split; intros Ha Hb; split.
  - intros _. apply new_exchange_upper; [done|by eapply lookup_lt_Some..].
  - intros <-. apply new_duplicate. left. by exists a, b, x.
  - intros _. apply new_exchange_lower; [done|by eapply lookup_lt_Some..].
  - intros <-. apply new_duplicate. right. by exists a, b, x.
Qed.

(** The groups a constructed tensor stores are the sorted groups. *)
Lemma new_groups symbol upper lower bks r t :
  __new__ symbol upper lower bks = Return r → carried r = Some t →
  ∃ ru nu rl nl u l d,
    _sort_anticommuting_fermions K upper = Return (ru, nu)
    ∧ _sort_anticommuting_fermions K lower = Return (rl, nl)
    ∧ bra_ket_block ru rl 0 bks = Return (u, l, d)
    ∧ t = {| symbol := symbol; upper := u; lower := l; bra_ket_sym := bks |}.
Proof.
  intros Hnew Ht.
  destruct (_sort_anticommuting_fermions K upper) as [[ru nu]|e|] eqn:Hu.
  - destruct (_sort_anticommuting_fermions K lower) as [[rl nl]|e|] eqn:Hl.
    + rewrite (new_sorted _ _ _ _ _ _ _ _ Hu Hl) in Hnew.
      destruct (bra_ket_block ru rl 0 bks) as [[[u l] d]| |] eqn:Hb;
        cbn [bind] in Hnew; [|done..].
      exists ru, nu, rl, nl, u, l, d. repeat split; try done.
      destruct (bool_decide _) in Hnew; injection Hnew as <-;
        simpl in Ht; by injection Ht as <-.
    + pose proof (sort_fermions_raises _ _ _ Hl) as ->.
      rewrite new_pauli_lower in Hnew by done. by simplify_eq/=.
    + by apply sort_fermions_total in Hl.
  - pose proof (sort_fermions_raises _ _ _ Hu) as ->.
    rewrite new_pauli_upper in Hnew by done. by simplify_eq/=.
  - by apply sort_fermions_total in Hu.
Qed.

Lemma new_canonical symbol upper lower bks r t :
  __new__ symbol upper lower bks = Return r → carried r = Some t → canonical t.
Proof.
  intros Hnew Ht.
  destruct (new_groups _ _ _ _ _ _ Hnew Ht)
    as (ru & nu & rl & nl & u & l & d & Hu & Hl & Hb & ->).
  assert (StronglySorted (key_lt K) ru ∧ StronglySorted (key_lt K) rl) as [Hsu Hsl].
  { split.
    - destruct (decide (NoDup (K <$> upper))) as [Hnd|Hnd].
      + destruct (sort_fermions_nodup K upper Hnd) as (r' & E & _ & Hs).
        rewrite E in Hu. by simplify_eq.
      + by rewrite (sort_fermions_dup K upper Hnd) in Hu.
    - destruct (decide (NoDup (K <$> lower))) as [Hnd|Hnd].
      + destruct (sort_fermions_nodup K lower Hnd) as (r' & E & _ & Hs).
        rewrite E in Hl. by simplify_eq.
      + by rewrite (sort_fermions_dup K lower Hnd) in Hl. }
  apply bra_ket_block_groups in Hb as [[-> ->]|[-> ->]]; by split.
Qed.

Lemma sort_fermions_return {A} (key : A → Key) (l r : list A) n :
  _sort_anticommuting_fermions key l = Return (r, n) →
  r ≡ₚ l ∧ StronglySorted (key_lt key) r ∧ n = inversions key l.
Proof.
  intros Hs. destruct (decide (NoDup (key <$> l))) as [Hnd|Hnd].
  - destruct (sort_fermions_nodup key l Hnd) as (r' & E & Hp & Hs').
    rewrite E in Hs. by simplify_eq.
  - by rewrite (sort_fermions_dup key l Hnd) in Hs.
Qed.

Lemma forallb_perm {A} (f : A → bool) (l1 l2 : list A) :
  l1 ≡ₚ l2 → forallb f l1 = forallb f l2.
Proof.
  induction 1 as [|x l1 l2 _ IH|x y l|l1 l2 l3 _ IH1 _ IH2]; simpl.
  - done.
  - by rewrite IH.
  - by destruct (f x), (f y).
  - by rewrite IH1.
Qed.

Lemma bra_ket_block_length upper lower s bks u l s' :
  bks ≠ 0%Z → forallb is_Index (upper ++ lower)%list = true →
  bra_ket_block upper lower s bks = Return (u, l, s') →
  length upper = length lower.
Proof.
  intros Hbks Hall. unfold bra_ket_block.
  rewrite Hall, bool_decide_true by done. simpl.
  destruct (bool_decide (bks ∉ [1%Z; (-1)%Z])); [done|].
  case_bool_decide as Hlen; [done|]. intros _.
  destruct (decide (length upper = length lower)); done.
Qed.

Lemma occupied_below_virtual n m :
  0 < n → 0 < m →
  String.ltb (string_of_list_ascii (replicate n "o"%char))
             (string_of_list_ascii (replicate m "v"%char)) = true.
Proof. destruct n, m; try lia. done. Qed.

(** C4 (amended): for a nonzero symmetry flag and indices that are all
    [Index] values, the stored groups have space strings, and when these
    differ the smaller one is that of the stored upper group; in particular
    an all-virtual upper group over an all-occupied lower group is stored
    with the occupied group as upper and the virtual group as lower. *)
Theorem smaller_space_string_is_upper symbol upper lower bks r t :
  bks ≠ 0%Z → forallb is_Index (upper ++ lower)%list = true →
  __new__ symbol upper lower bks = Return r → carried r = Some t →
  ∃ space_u space_l,
    space_string (AntiSymmetricTensor.upper t) = Return space_u
    ∧ space_string (AntiSymmetricTensor.lower t) = Return space_l
    ∧ (space_u ≠ space_l → String.ltb space_u space_l = true)
    ∧ (upper ≠ [] →
       Forall (λ v, get_space0 v = Return "v"%char) upper →
       Forall (λ v, get_space0 v = Return "o"%char) lower →
       AntiSymmetricTensor.upper t ≡ₚ lower
       ∧ AntiSymmetricTensor.lower t ≡ₚ upper).
Proof.
  intros Hbks Hall Hnew Ht.
  destruct (new_groups _ _ _ _ _ _ Hnew Ht)
    as (ru & nu & rl & nl & u & l & d & Hu & Hl & Hb & ->).
  apply sort_fermions_return in Hu as (Hpu & _ & _).
  apply sort_fermions_return in Hl as (Hpl & _ & _).
  assert (forallb is_Index (ru ++ rl)%list = true) as Hall'.
  { rewrite <- Hall. apply forallb_perm. by rewrite Hpu, Hpl. }
  destruct (bra_ket_block_spaces _ _ _ _ _ _ _ Hbks Hall' Hb)
    as (su & sl & su' & sl' & Esu & Esl & Esu' & Esl' & Hlt & Hswap).
  exists su', sl'. simpl. repeat split; try done.
  - destruct Hswap as [-> ->]; [|done].
    pose proof (bra_ket_block_length _ _ _ _ _ _ _ Hbks Hall' Hb) as Hlen.
    rewrite (space_string_constant "v" ru) in Esu by by rewrite Hpu.
    rewrite (space_string_constant "o" rl) in Esl by by rewrite Hpl.
    injection Esu as <-. injection Esl as <-.
    assert (0 < length ru).
    { rewrite Hpu. destruct upper; [done|simpl; lia]. }
    apply occupied_below_virtual; lia.
  - destruct Hswap as [-> ->]; [|done].
    pose proof (bra_ket_block_length _ _ _ _ _ _ _ Hbks Hall' Hb) as Hlen.
    rewrite (space_string_constant "v" ru) in Esu by by rewrite Hpu.
    rewrite (space_string_constant "o" rl) in Esl by by rewrite Hpl.
    injection Esu as <-. injection Esl as <-.
    assert (0 < length ru).
    { rewrite Hpu. destruct upper; [done|simpl; lia]. }
    apply occupied_below_virtual; lia.
Qed.

Lemma bra_ket_block_input_error upper lower s bks what :
  bra_ket_block upper lower s bks = Raise (Inputerror what)
  ↔ what = InvalidBraKetSym ∧ bks ≠ 0%Z
    ∧ forallb is_Index (upper ++ lower)%list = true ∧ bks ∉ [1%Z; (-1)%Z].
Proof.
  unfold bra_ket_block.
  case_bool_decide as Hbks; simpl; [|intuition congruence].
  destruct (forallb is_Index (upper ++ lower)%list) eqn:Hall;
    [|intuition congruence].
  case_bool_decide as Hin; [intuition congruence|].
  case_bool_decide as Hlen; [intuition congruence|].
  rewrite forallb_app, andb_true_iff in Hall. destruct Hall as [Hu Hl].
  destruct (space_string_Index upper Hu) as (su & ->).
  destruct (space_string_Index lower Hl) as (sl & ->).
  destruct (names_Index lower Hl) as (nl & ->).
  destruct (names_Index upper Hu) as (nu & ->). simpl.
  repeat case_match; intuition congruence.
Qed.

Lemma new_of_canonical t sym :
  canonical t →
  __new__ (symbol t) (upper t) (lower t) sym
  = '(u, l, d) <- bra_ket_block (upper t) (lower t) 0 sym ;
    let t' := {| symbol := symbol t; upper := u; lower := l; bra_ket_sym := sym |} in
    if bool_decide ((0 + d + 0) mod 2 ≠ 0) then Return (Minus t')
    else Return (Plus t').
Proof.
  intros [Hu Hl]. apply new_sorted; by apply sort_fermions_sorted.
Qed.

Lemma new_input_error symbol upper lower bks what :
  __new__ symbol upper lower bks = Raise (Inputerror what) →
  what = InvalidBraKetSym.
Proof.
  intros Hnew.
  destruct (_sort_anticommuting_fermions K upper) as [[ru nu]|e|] eqn:Hu.
  - destruct (_sort_anticommuting_fermions K lower) as [[rl nl]|e|] eqn:Hl.
    + rewrite (new_sorted _ _ _ _ _ _ _ _ Hu Hl) in Hnew.
      destruct (bra_ket_block ru rl 0 bks) as [[[u l] d]|e|] eqn:Hb;
        cbn [bind] in Hnew.
      * by destruct (bool_decide _) in Hnew.
      * injection Hnew as ->. by apply bra_ket_block_input_error in Hb as [-> _].
      * done.
    + pose proof (sort_fermions_raises _ _ _ Hl) as ->.
      by rewrite new_pauli_lower in Hnew.
    + by apply sort_fermions_total in Hl.
  - pose proof (sort_fermions_raises _ _ _ Hu) as ->.
    by rewrite new_pauli_upper in Hnew.
  - by apply sort_fermions_total in Hu.
Qed.

(** C5 (amended): [add_bra_ket_sym] returns the tensor itself for a falsy
    symmetry; for a nonzero symmetry on a tensor whose symmetry is zero it
    is the constructor run again on the stored groups with that symmetry,
    which for a canonical tensor, a symmetry of +1 or -1 and groups of equal
    length returns a tensor, possibly negated, carrying the symmetry; it
    raises the "already set" input error exactly when the tensor carries a
    nonzero symmetry and the requested one is nonzero, the same symmetry
    included; and on a canonical tensor it raises an input error exactly
    then or when the tensor's symmetry is zero, all indices are [Index]
    values and the requested symmetry is none of 0, +1, -1. *)
Theorem add_bra_ket_sym_spec t sym :
  (sym = 0%Z → add_bra_ket_sym t sym = Return (Plus t))
  ∧ (sym ≠ 0%Z → bra_ket_sym t = 0%Z →
     add_bra_ket_sym t sym = __new__ (symbol t) (upper t) (lower t) sym)
  ∧ (add_bra_ket_sym t sym = Raise (Inputerror BraKetSymAlreadySet)
     ↔ bra_ket_sym t ≠ 0%Z ∧ sym ≠ 0%Z)
  ∧ (canonical t →
     ((∃ what, add_bra_ket_sym t sym = Raise (Inputerror what))
      ↔ (bra_ket_sym t ≠ 0%Z ∧ sym ≠ 0%Z)
        ∨ (bra_ket_sym t = 0%Z ∧ (sym ∉ [0%Z; 1%Z; (-1)%Z])
           ∧ forallb is_Index (upper t ++ lower t)%list = true)))
  ∧ (canonical t → bra_ket_sym t = 0%Z → sym ∈ [1%Z; (-1)%Z] →
     length (upper t) = length (lower t) →
     ∃ r t', add_bra_ket_sym t sym = Return r ∧ carried r = Some t'
             ∧ bra_ket_sym t' = sym ∧ symbol t' = symbol t).
Proof.
  unfold add_bra_ket_sym. split; [|split; [|split; [|split]]].
  - by intros ->.
  - intros Hs Ht.
    by rewrite (bool_decide_true (sym ≠ 0%Z)), (bool_decide_true (_ = 0%Z)).
  - repeat case_bool_decide; simpl; split; try done; try tauto.
    by intros Hnew%new_input_error.
  - intros Hc. split.
    + intros [what Hadd]. revert Hadd.
      repeat case_bool_decide; simpl; try done; [|tauto].
      rewrite new_of_canonical by done.
      destruct (bra_ket_block (upper t) (lower t) 0 sym) as [[[u l] d]|e|] eqn:Hb;
        cbn [bind]; [by destruct (bool_decide _)| |done].
      intros [= ->]. apply bra_ket_block_input_error in Hb as (_ & _ & Hall & Hin).
      right. repeat split; try done.
      rewrite not_elem_of_cons. by split; [intros ->|].
    + intros [[Ht Hs]|(Ht & Hs & Hall)].
      * exists BraKetSymAlreadySet.
        by rewrite (bool_decide_false (_ = 0%Z)), (bool_decide_false (sym = 0%Z)),
          andb_false_r.
      * exists InvalidBraKetSym.
        apply not_elem_of_cons in Hs as [Hs Hin].
        rewrite (bool_decide_true (sym ≠ 0%Z)), (bool_decide_true (_ = 0%Z)) by done.
        simpl. rewrite new_of_canonical by done.
        assert (bra_ket_block (upper t) (lower t) 0 sym
                = Raise (Inputerror InvalidBraKetSym)) as ->; [|done].
        by apply bra_ket_block_input_error.
  - intros Hc Ht Hs Hlen.
    assert (sym ≠ 0%Z).
    { intros ->. rewrite !elem_of_cons, elem_of_nil in Hs. lia. }
    rewrite (bool_decide_true (sym ≠ 0%Z)), (bool_decide_true (_ = 0%Z)) by done.
    simpl. rewrite new_of_canonical by done.
    assert (∃ u l d, bra_ket_block (upper t) (lower t) 0 sym = Return (u, l, d))
      as (u & l & d & ->).
    { unfold bra_ket_block.
      rewrite (bool_decide_false (sym ∉ _)) by tauto.
      rewrite (bool_decide_false (length _ ≠ _)) by tauto.
      case_bool_decide; [|done]. simpl.
      destruct (forallb is_Index (upper t ++ lower t)%list) eqn:Hall; [|by eauto].
      rewrite forallb_app, andb_true_iff in Hall. destruct Hall as [Hu Hl].
      destruct (space_string_Index (upper t) Hu) as (su & ->).
      destruct (space_string_Index (lower t) Hl) as (sl & ->).
      destruct (names_Index (lower t) Hl) as (nl & ->).
      destruct (names_Index (upper t) Hu) as (nu & ->). simpl.
      repeat case_match; eauto. }
    cbn [bind]. destruct (bool_decide _); eexists _, _; by repeat split.
Qed.
End facts.
End AntiSymmetricTensorFacts.

(** ** Delta *)

Module DeltaFacts.
Import Delta.
Section facts.
Context `{Host}.
Implicit Types (i j a b : val) (r : option Range).

Local Abbreviation K := _sort_canonical.

Lemma eval_checks cls i j r :
  eval cls i j r
  = c <- checks i j r ;
    match c with
    | Some v => Return (Some v)
    | None =>
        if bool_decide (i ≠ min_by K i j)
        then fmap_outcome Some (cls j i r)
        else Return None
    end.
Proof.
  unfold eval, checks, bind.
  repeat case_match; simplify_eq/=; done.
Qed.

Lemma Delta_S fuel i j r :
  Delta (S fuel) i j r
  = c <- checks i j r ;
    match c with
    | Some v => Return v
    | None => if bool_decide (i ≠ min_by K i j) then Delta fuel j i r
              else Return (KroneckerDelta i j r)
    end.
Proof.
  simpl. rewrite eval_checks. unfold bind, fmap_outcome, bind.
  repeat case_match; simplify_eq/=; done.
Qed.

Lemma min_by_swap i j : i ≠ min_by K i j → min_by K j i = j.
Proof.
  unfold min_by, key_ltb. intros Hne.
  destruct (key_compare (K j) (K i)) eqn:E; simpl in *; try done.
  rewrite (cmp_opp _ key_total_cmp (K j) (K i)), E. done.
Qed.

Lemma checks_index i j r :
  checks i j r = Return None → ∃ x y, i = VIndex x ∧ j = VIndex y.
Proof.
  unfold checks, bind. destruct i as [x|o], j as [y|o']; simpl;
    repeat case_match; try done; eauto.
Qed.




Lemma checks_total i j r : checks i j r ≠ OutOfFuel.
Proof.
  unfold checks, outside_range, or_else, truth, bind.
  destruct i, j; simpl; repeat case_match; done.
Qed.

(** Enough fuel: the constructor rebuilds at most once. *)
Lemma Delta_fuel fuel i j r :
  Delta (S (S fuel)) i j r = Delta 2 i j r ∧ Delta 2 i j r ≠ OutOfFuel.
Proof.
  rewrite !(Delta_S _ i j r).
  pose proof (checks_total i j r) as Ht.
  destruct (checks i j r) as [[v|]|e|] eqn:Hc; cbn [bind]; try done.
  case_bool_decide as Hmin; [|done].
  apply min_by_swap in Hmin. rewrite !(Delta_S _ j i r).
  pose proof (checks_total j i r) as Ht'.
  destruct (checks j i r) as [[v|]|e|] eqn:Hc'; cbn [bind]; try done.
  rewrite Hmin. by rewrite bool_decide_false by naive_solver.
Qed.

Lemma Delta_enough fuel i j r :
  2 ≤ fuel → Delta fuel i j r = Delta 2 i j r.
Proof.
  intros Hf. destruct fuel as [|[|fuel]]; [lia..|]. apply Delta_fuel.
Qed.

(** A delta that stays symbolic passed rules 1 to 4, keeps its range and
    holds its two indices with the smaller one first. *)
Lemma Delta_symbolic fuel i j r a b r' :
  Delta fuel i j r = Return (KroneckerDelta a b r') →
  r' = r ∧ ((a = i ∧ b = j) ∨ (a = j ∧ b = i))
  ∧ min_by K a b = a ∧ checks a b r = Return None.
Proof.
  revert i j. induction fuel as [|fuel IH]; intros i j; [done|].
  rewrite Delta_S. destruct (checks i j r) as [[v|]|e|] eqn:Hc; cbn [bind]; try done.
  - intros [= ->]. revert Hc. unfold checks, bind.
    repeat case_match; done.
  - case_bool_decide as Hmin.
    + intros (-> & Hab & Hm & Hc')%IH. split; [done|]. split; [tauto|done].
    + intros [= <- <- <-]. split; [done|]. split; [tauto|]. split; [|done].
      destruct (decide (i = min_by K i j)); done.
Qed.


Lemma checks_spaces (x y : Index) r :
  checks (VIndex x) (VIndex y) r = Return None →
  space0 x = "g"%char ∨ space0 y = "g"%char ∨ space0 x = space0 y.
Proof.
  unfold checks, bind. simpl.
  destruct (outside_range (VIndex x) (VIndex y) r) as [[|]| |]; try done.
  case_match; [done|].
  destruct (decide (space0 x = "g"%char)) as [|Hx]; [by left|].
  destruct (decide (space0 y = "g"%char)) as [|Hy]; [by right; left|].
  destruct (decide (space0 x = space0 y)) as [|Hxy]; [by right; right|].
  by rewrite (bool_decide_true (space0 x ≠ "g"%char)),
    (bool_decide_true (space0 y ≠ "g"%char)),
    (bool_decide_true (space0 x ≠ space0 y)).
Qed.

(** A decided difference ends [eval] with one, whichever way it is
    decided. *)
Lemma eval_decided cls i j r (d : bool) :
  outside_range i j r = Return false → diff_is_zero i j = Some d →
  eval cls i j r = Return (Some One).
Proof.
  intros Hr Hd. unfold eval. rewrite Hr, Hd. by destruct d.
Qed.


(** C10: for a delta that survived construction, [_get_preferred_index]
    raises the not-implemented error exactly when the two spins differ;
    with equal spins it returns 0 when the spaces are equal or the second
    space is the wildcard, 1 in the remaining case, where the first space is
    the wildcard; it always returns 0 or 1 then. *)
Theorem preferred_index_of_symbolic_delta fuel i j r a b r' :
  Delta fuel i j r = Return (KroneckerDelta a b r') →
  ∃ x y,
    a = VIndex x ∧ b = VIndex y
    ∧ (_get_preferred_index a b = Raise (NotImplementedError DifferentSpin)
       ↔ spin x ≠ spin y)
    ∧ (spin x = spin y →
       (space0 x = space0 y ∨ space0 y = "g"%char →
        _get_preferred_index a b = Return (Some 0))
       ∧ (space0 x ≠ space0 y → space0 y ≠ "g"%char →
          space0 x = "g"%char ∧ _get_preferred_index a b = Return (Some 1))
       ∧ (_get_preferred_index a b = Return (Some 0)
          ∨ _get_preferred_index a b = Return (Some 1))).
Proof.
  intros Hd. apply Delta_symbolic in Hd as (_ & _ & _ & Hc).
  destruct (checks_index _ _ _ Hc) as (x & y & -> & ->).
  apply checks_spaces in Hc. exists x, y. split; [done|]. split; [done|].
  unfold _get_preferred_index. simpl.
  destruct (decide (spin x = spin y)) as [Hs|Hs].
  - rewrite (bool_decide_false (spin x ≠ spin y)) by tauto. split.
    { split; [|tauto]. repeat case_bool_decide; done. }
    intros _.
    destruct (decide (space0 x = space0 y)) as [Hxy|Hxy].
    { rewrite (bool_decide_true (space0 x = space0 y)) by done. tauto. }
    rewrite (bool_decide_false (space0 x = space0 y)) by done.
    destruct (decide (space0 y = "g"%char)) as [Hy|Hy].
    { rewrite (bool_decide_true (space0 y = "g"%char)) by done. tauto. }
    rewrite (bool_decide_false (space0 y = "g"%char)) by done.
    assert (space0 x = "g"%char) as Hx by tauto.
    rewrite (bool_decide_true (space0 x = "g"%char)) by done. tauto.
  - rewrite (bool_decide_true (spin x ≠ spin y)) by done. split; [done|].
    by intros ?.
Qed.
End facts.
End DeltaFacts.

(** ** SingleSymmetryTensor *)

Module SingleSymmetryTensorFacts.
Import SingleSymmetryTensor.
Section facts.
Context `{Host}.
Implicit Types (indices : list val) (perms : list (nat * nat)) (st : Locals).

Local Abbreviation K := _sort_canonical.

Lemma sorted_cases perm :
  sorted perm = (fst perm, snd perm) ∨ sorted perm = (snd perm, fst perm).
Proof. unfold sorted. case_match; auto. Qed.

Lemma loop_body_Some indices factor st perm st' :
  loop_body indices factor st perm = Return (Some st') →
  ∃ p q, indices !! fst (sorted perm) = Some p
         ∧ indices !! snd (sorted perm) = Some q
         ∧ permuted st'
           = <[snd (sorted perm) := p]> (<[fst (sorted perm) := q]> (permuted st))
         ∧ (key_ltb (K q) (K p) = true →
            apply st' = (apply st ++ [true])%list
            ∧ min_apply st'
              = (if is_None_or_lt (K q) (min_apply st) then Some (K q)
                 else min_apply st)
            ∧ min_not_apply st' = min_not_apply st)
         ∧ (key_ltb (K q) (K p) = false →
            apply st' = apply st
            ∧ min_apply st' = min_apply st
            ∧ min_not_apply st'
              = (if is_None_or_lt (K q) (min_not_apply st) then Some (K p)
                 else min_not_apply st)).
Proof.
  unfold loop_body, getitem. destruct (sorted perm) as [i j]. simpl.
  destruct (indices !! i) as [p|]; [|done]. simpl.
  destruct (indices !! j) as [q|]; [|done]. simpl.
  case_match; [done|]. intros [= <-]. exists p, q.
  destruct (key_ltb (K q) (K p)); simpl; repeat split; done.
Qed.

Lemma chain_app perms1 perms2 : chain (perms1 ++ perms2) = (chain perms1 ++ chain perms2)%list.
Proof. unfold chain. by rewrite flat_map_app. Qed.

Lemma elem_of_chain perms perm :
  perm ∈ perms → fst perm ∈ chain perms ∧ snd perm ∈ chain perms.
Proof.
  intros Hin. unfold chain. split; apply list_elem_of_In, in_flat_map;
    exists perm; (split; [by apply list_elem_of_In|simpl; auto]).
Qed.

Lemma loop_body_swapped indices factor seen st perm st' :
  NoDup (chain (seen ++ [perm])) →
  every_pair_swapped indices (permuted st) seen →
  loop_body indices factor st perm = Return (Some st') →
  every_pair_swapped indices (permuted st') (seen ++ [perm]).
Proof.
  intros Hnd (Hpairs & Hrest & Hlen) Hbody.
  apply loop_body_Some in Hbody as (p & q & Hp & Hq & -> & _).
  rewrite chain_app in Hnd. apply NoDup_app in Hnd as (_ & Hdisj & Hperm).
  simpl in Hperm. apply NoDup_cons in Hperm as [Hne _].
  rewrite elem_of_cons, elem_of_nil in Hne.
  assert (fst perm ≠ snd perm) as Hij by tauto.
  pose proof (lookup_lt_Some _ _ _ Hp) as Hpl.
  pose proof (lookup_lt_Some _ _ _ Hq) as Hql.
  assert (∀ k, k ∈ chain seen → k ≠ fst perm ∧ k ≠ snd perm) as Hseen.
  { intros k Hk. specialize (Hdisj k Hk). simpl in Hdisj.
    rewrite !elem_of_cons in Hdisj. split; intros ->; tauto. }
  set (i := fst (sorted perm)) in *. set (j := snd (sorted perm)) in *.
  assert (i ≠ j ∧ ((i = fst perm ∧ j = snd perm) ∨ (i = snd perm ∧ j = fst perm)))
    as [Hne' Hcases].
  { subst i j. destruct (sorted_cases perm) as [-> | ->]; simpl; split; auto. }
  assert (<[j:=p]> (<[i:=q]> (permuted st)) !! i = Some q) as Hi.
  { rewrite list_lookup_insert_ne by done.
    apply list_lookup_insert_eq. by rewrite Hlen. }
  assert (<[j:=p]> (<[i:=q]> (permuted st)) !! j = Some p) as Hj.
  { apply list_lookup_insert_eq. by rewrite length_insert, Hlen. }
  split; [|split].
  - intros perm' [Hin| ->%list_elem_of_singleton]%elem_of_app.
    + destruct (elem_of_chain _ _ Hin) as [H1 H2].
      apply Hseen in H1 as [? ?]. apply Hseen in H2 as [? ?].
      rewrite !list_lookup_insert_ne by (destruct Hcases as [[-> ->]|[-> ->]]; done).
      by apply Hpairs.
    + destruct Hcases as [[E1 E2]|[E1 E2]]; rewrite <- E1, <- E2; split; congruence.
  - intros k Hk. rewrite chain_app, elem_of_app in Hk. simpl in Hk.
    rewrite !elem_of_cons in Hk.
    assert (i ≠ k ∧ j ≠ k) as [? ?].
    { destruct Hcases as [[E1 E2]|[E1 E2]]; rewrite E1, E2; split; intros <-; tauto. }
    rewrite !list_lookup_insert_ne by done.
    apply Hrest. tauto.
  - by rewrite !length_insert.
Qed.

Lemma loop_body_tracked indices factor seen st perm st' :
  tracked seen st →
  loop_body indices factor st perm = Return (Some st') →
  tracked (seen ++ [perm]) st'.
Proof.
  intros (Hle & Ha & Hn) Hbody.
  apply loop_body_Some in Hbody as (p & q & _ & _ & _ & Happly & Hskip).
  unfold tracked. rewrite length_app. simpl.
  destruct (key_ltb (K q) (K p)).
  - destruct Happly as (-> & -> & ->); [done|]. rewrite length_app. simpl.
    split; [lia|]. split.
    + intros _. destruct (min_apply st) as [k|]; simpl; [|by eexists].
      destruct (key_ltb (K q) k); by eexists.
    + intros Hlt. apply Hn. lia.
  - destruct Hskip as (-> & -> & ->); [done|].
    split; [lia|]. split; [done|].
    intros _. destruct (min_not_apply st) as [k|]; simpl; [|by eexists].
    destruct (key_ltb (K q) k); by eexists.
Qed.

Lemma loop_invariant indices factor rest :
  ∀ seen st st',
    NoDup (chain (seen ++ rest)) →
    every_pair_swapped indices (permuted st) seen → tracked seen st →
    loop indices factor rest st = Return (Some st') →
    every_pair_swapped indices (permuted st') (seen ++ rest)
    ∧ tracked (seen ++ rest) st'.
Proof.
  induction rest as [|perm rest IH]; intros seen st st' Hnd Hsw Htr; simpl.
  - intros [= <-]. by rewrite app_nil_r.
  - destruct (loop_body indices factor st perm) as [[st1|]|e|] eqn:Hbody;
      simpl; try done.
    intros Hloop. rewrite (cons_middle perm seen rest), app_assoc in Hnd |- *.
    apply (IH _ st1); [done| | |done].
    + eapply loop_body_swapped; [|done..].
      rewrite chain_app in Hnd. by apply NoDup_app in Hnd as (? & _).
    + by eapply loop_body_tracked.
Qed.

Lemma loop_from_initial indices factor perms st :
  NoDup (chain perms) →
  loop indices factor perms (initial indices) = Return (Some st) →
  every_pair_swapped indices (permuted st) perms ∧ tracked perms st.
Proof.
  intros Hnd Hloop.
  apply (loop_invariant indices factor perms [] (initial indices) st); try done.
  - split; [|done]. intros perm Hin. by apply elem_of_nil in Hin.
  - unfold tracked. simpl. split; [lia|]. split; [done|lia].
Qed.

(** With the keys the loop tracked, the resolution raises nothing. *)
Lemma resolve_tracked indices perms factor st :
  tracked perms st →
  resolve indices perms factor st
  = Return (if batch_applied perms st
            then (permuted st, bool_decide (factor = (-1)%Z))
            else (indices, false)).
Proof.
  intros (Hle & Ha & Hn). unfold resolve, batch_applied.
  case_bool_decide as Hall; [done|]. simpl.
  case_bool_decide as Hhalf; [|done]. simpl.
  destruct Hn as [kn ->]; [lia|].
  destruct Ha as [ka ->].
  { intros E. rewrite E in Hhalf, Hall. simpl in *. lia. }
  simpl. by destruct (key_ltb ka kn).
Qed.


(** C2 (amended): when the constructor returns a tensor, the loop has run
    to its end; if the global decision is to apply the batch, every pair of
    [perms] is exchanged in the stored sequence, those marked skip as well,
    the other positions are unchanged, and the result is negated exactly
    when the factor is -1; otherwise the sequence is stored as given, with
    no sign. *)
Theorem batch_swaps_every_pair symbol indices perms factor r t :
  __new__ symbol indices perms factor = Return r → carried r = Some t →
  ∃ st,
    loop indices factor perms (initial indices) = Return (Some st)
    ∧ (batch_applied perms st = true →
       every_pair_swapped indices (SingleSymmetryTensor.indices t) perms
       ∧ r = (if bool_decide (factor = (-1)%Z) then Minus t else Plus t))
    ∧ (batch_applied perms st = false →
       SingleSymmetryTensor.indices t = indices ∧ r = Plus t).
Proof.
  unfold __new__. case_bool_decide as Hnd; [done|].
  case_bool_decide as Hf; [done|].
  apply size_list_to_set_NoDup in Hnd.
  fold (initial indices).
  destruct (loop indices factor perms (initial indices)) as [[st|]|e|] eqn:Hloop;
    cbn [bind]; try done; [|by intros [= <-]].
  destruct (loop_from_initial _ _ _ _ Hnd Hloop) as [Hsw Htr].
  rewrite (resolve_tracked _ _ _ _ Htr). cbn [bind].
  intros Hr Ht. exists st. split; [done|].
  destruct (batch_applied perms st).
  - split; [|done]. intros _.
    destruct (bool_decide (factor = (-1)%Z)); injection Hr as <-;
      simpl in Ht; injection Ht as <-; by split.
  - split; [done|]. intros _.
    injection Hr as <-. simpl in Ht. injection Ht as <-. by split.
Qed.

(** An equal pair under an antisymmetric factor ends the loop with zero. *)
Lemma loop_self_pair indices perms st perm p :
  Forall (λ perm, fst perm < length indices ∧ snd perm < length indices) perms →
  perm ∈ perms →
  indices !! fst perm = Some p → indices !! snd perm = Some p →
  loop indices (-1) perms st = Return None.
Proof.
  intros Hrange Hin Hp Hq. revert st.
  induction Hrange as [|perm' perms [Hi Hj] _ IH]; intros st.
  { by apply elem_of_nil in Hin. }
  simpl. unfold loop_body, getitem.
  assert (∃ p' q', indices !! fst (sorted perm') = Some p'
                   ∧ indices !! snd (sorted perm') = Some q'
                   ∧ (perm' = perm → p' = q')) as (p' & q' & Hp' & Hq' & Heq).
  { destruct (lookup_lt_is_Some_2 indices (fst perm') Hi) as [x Hx].
    destruct (lookup_lt_is_Some_2 indices (snd perm') Hj) as [y Hy].
    destruct (sorted_cases perm') as [-> | ->]; simpl.
    - exists x, y. repeat split; try done. intros ->. congruence.
    - exists y, x. repeat split; try done. intros ->. congruence. }
  destruct (sorted perm') as [i j]. simpl in *. rewrite Hp', Hq'. simpl.
  case_bool_decide as Hpq; simpl; [done|].
  apply elem_of_cons in Hin as [->|Hin]; [by destruct Hpq; apply Heq|].
  by apply IH.
Qed.

Lemma new_self_pair symbol indices perms perm p :
  NoDup (chain perms) →
  Forall (λ perm, fst perm < length indices ∧ snd perm < length indices) perms →
  perm ∈ perms →
  indices !! fst perm = Some p → indices !! snd perm = Some p →
  __new__ symbol indices perms (-1) = Return S_Zero.
Proof.
  intros Hnd Hrange Hin Hp Hq. unfold __new__.
  rewrite bool_decide_false by by intros []; apply size_list_to_set_NoDup.
  simpl. by rewrite (loop_self_pair _ _ _ perm p).
Qed.
End facts.
End SingleSymmetryTensorFacts.

(** ** Across the three classes *)

Section across.
Context `{Host}.

(** C9: the three oracle key functions return the same key tuple on every
    value, an [Index] or not. *)
Theorem sort_canonical_agree (idx : val) :
  AntiSymmetricTensor._sort_canonical idx = Delta._sort_canonical idx
  ∧ Delta._sort_canonical idx = SingleSymmetryTensor._sort_canonical idx.
Proof. by destruct idx. Qed.

(** C7: a duplicate index within the upper or the lower group makes
    [AntiSymmetricTensor] return zero, whatever the symmetry flag; and for
    pairwise disjoint permutations at positions of the index sequence, an
    equal pair of indices at the positions of one of them makes
    [SingleSymmetryTensor] with factor -1 return zero.  Zero is a returned
    value: no exception is raised. *)
Theorem degenerate_input_is_zero :
  (∀ symbol upper lower bra_ket_sym,
     has_duplicate upper ∨ has_duplicate lower →
     AntiSymmetricTensor.__new__ symbol upper lower bra_ket_sym = Return S_Zero)
  ∧ (∀ symbol (indices : list val) perms perm p,
       NoDup (SingleSymmetryTensor.chain perms) →
       Forall (λ perm, fst perm < length indices ∧ snd perm < length indices)
         perms →
       perm ∈ perms →
       indices !! fst perm = Some p → indices !! snd perm = Some p →
       SingleSymmetryTensor.__new__ symbol indices perms (-1) = Return S_Zero).
Proof.
  split.
  - apply AntiSymmetricTensorFacts.new_duplicate.
  - apply SingleSymmetryTensorFacts.new_self_pair.
Qed.
End across.

(** ** The code at work on the sample host *)

Module SampleFacts.
Import Sample.



(** C1: [Delta.eval] on two values the host proves unequal, here the
    integers 1 and 2 with no range: the code returns one, where a Kronecker
    delta of unequal arguments is zero. *)
Theorem eval_provably_unequal_returns_one :
  diff_is_zero (VOther 1%Z) (VOther 2%Z) = Some false
  ∧ Delta.outside_range (VOther 1%Z) (VOther 2%Z) None = Return false
  ∧ Delta.eval (Delta.Delta 1) (VOther 1%Z) (VOther 2%Z) None
    = Return (Some Delta.One)
  ∧ Delta.Delta 2 (VOther 1%Z) (VOther 2%Z) None = Return Delta.One.
Proof. by vm_compute. Qed.

(** C3: on that input the loop leaves [min_not_apply] at the key of [i5],
    though the skip pair [(i3, i7)] has the smaller earlier key [i3]; the
    batch is applied because [i4 < i5], although [i4 < i3] fails. *)
Theorem skip_minimum_not_tracked :
  ∃ st,
    SingleSymmetryTensor.loop eight 1 four_pairs
      (SingleSymmetryTensor.initial eight) = Return (Some st)
    ∧ SingleSymmetryTensor.min_not_apply st
      = Some (SingleSymmetryTensor._sort_canonical (i_ 5))
    ∧ key_minimum (SingleSymmetryTensor.skip_keys eight four_pairs)
      = Some (SingleSymmetryTensor._sort_canonical (i_ 3))
    ∧ SingleSymmetryTensor.min_apply st
      = Some (SingleSymmetryTensor._sort_canonical (i_ 4))
    ∧ length (SingleSymmetryTensor.apply st) = 2
    ∧ SingleSymmetryTensor.batch_applied four_pairs st = true
    ∧ key_ltb (SingleSymmetryTensor._sort_canonical (i_ 4))
        (SingleSymmetryTensor._sort_canonical (i_ 3)) = false.
Proof. eexists. by vm_compute. Qed.

(** C2, at work: both pairs of [(j, i, a, b)] are exchanged. *)
Lemma batch_swaps_every_pair_witness :
  ∃ st,
    SingleSymmetryTensor.loop mixed 1 two_pairs
      (SingleSymmetryTensor.initial mixed) = Return (Some st)
    ∧ (SingleSymmetryTensor.batch_applied two_pairs st = true →
       SingleSymmetryTensor.every_pair_swapped mixed
         (SingleSymmetryTensor.indices mixed_stored) two_pairs
       ∧ Plus mixed_stored
         = (if bool_decide (1 = -1)%Z then Minus mixed_stored
            else Plus mixed_stored))
    ∧ (SingleSymmetryTensor.batch_applied two_pairs st = false →
       SingleSymmetryTensor.indices mixed_stored = mixed
       ∧ Plus mixed_stored = Plus mixed_stored).
Proof.
  apply (SingleSymmetryTensorFacts.batch_swaps_every_pair (H := host) "u" mixed two_pairs 1
           (Plus mixed_stored) mixed_stored).
  - vm_compute. reflexivity.
  - reflexivity.
Defined.

(** C2, as stated, fails: the pair [(a, b)] is marked skip, the batch is
    applied, and the stored sequence holds [b] before [a]. *)
Lemma skip_pair_is_swapped :
  ¬ SingleSymmetryTensor.only_marked_pairs_swapped "u" mixed two_pairs 1.
Proof.
  intros Hc.
  specialize (Hc (Plus mixed_stored) mixed_stored _ eq_refl eq_refl eq_refl
                eq_refl (2, 3) a b).
  destruct Hc as [Hc _].
  - apply list_elem_of_In. simpl. auto.
  - reflexivity.
  - reflexivity.
  - vm_compute in Hc. discriminate Hc.
Qed.

(** C4, at work: virtual over occupied is stored occupied over virtual. *)
Lemma smaller_space_string_is_upper_witness :
  ∃ space_u space_l,
    AntiSymmetricTensor.space_string (AntiSymmetricTensor.upper oovv)
    = Return space_u
    ∧ AntiSymmetricTensor.space_string (AntiSymmetricTensor.lower oovv)
      = Return space_l
    ∧ (space_u ≠ space_l → String.ltb space_u space_l = true)
    ∧ ([a; b] ≠ [] →
       Forall (λ v, get_space0 v = Return "v"%char) [a; b] →
       Forall (λ v, get_space0 v = Return "o"%char) [i; j] →
       AntiSymmetricTensor.upper oovv ≡ₚ [i; j]
       ∧ AntiSymmetricTensor.lower oovv ≡ₚ [a; b]).
Proof.
  apply (AntiSymmetricTensorFacts.smaller_space_string_is_upper (H := host) "t" [a; b] [i; j]
           1 (Plus oovv) oovv).
  - lia.
  - reflexivity.
  - vm_compute. reflexivity.
  - reflexivity.
Defined.

(** C4, as stated, fails: the occupied group, whose space string is the
    smaller one, is stored as the upper group. *)
Lemma occupied_group_stored_upper :
  ¬ AntiSymmetricTensor.smaller_space_string_is_lower "t" [a; b] [i; j] 1.
Proof.
  intros Hc.
  specialize (Hc (Plus oovv) oovv "oo"%string "vv"%string eq_refl eq_refl
                eq_refl eq_refl).
  assert ("oo"%string ≠ "vv"%string) as Hne by discriminate.
  specialize (Hc Hne). vm_compute in Hc. discriminate Hc.
Qed.

(** C5, at work: a falsy symmetry returns the tensor itself. *)
Lemma add_bra_ket_sym_spec_witness :
  AntiSymmetricTensor.add_bra_ket_sym oovv 0 = Return (Plus oovv).
Proof.
  apply (AntiSymmetricTensorFacts.add_bra_ket_sym_spec (H := host) oovv 0). reflexivity.
Defined.

(** C5, as stated, fails: requesting again the symmetry the tensor carries
    raises the input error. *)
Lemma same_symmetry_is_refused :
  ¬ AntiSymmetricTensor.fails_only_for_another_symmetry oovv 1.
Proof.
  intros [Hc _]. destruct Hc as (_ & _ & Hne).
  - exists BraKetSymAlreadySet. reflexivity.
  - by apply Hne.
Qed.

(** C6, at work: [(b, a)] over [(i, j)] is minus [(a, b)] over [(i, j)]. *)
Lemma transposition_negates_witness :
  AntiSymmetricTensor.__new__ "t" (exchange 0 1 [a; b]) [i; j] 1
  = negated (AntiSymmetricTensor.__new__ "t" [a; b] [i; j] 1).
Proof.
  destruct (AntiSymmetricTensorFacts.transposition_negates (H := host) "t" [a; b] [i; j] 1
              0 1 a b) as [Hu _]; [lia|].
  apply Hu; [reflexivity|reflexivity|]. vm_compute. discriminate.
Defined.

(** C7, at work: the Pauli-violating [(i, i)] over [(a, b)] is zero, and so
    is the antisymmetric [(i, i, a, b)] under the pair [(0, 1)]. *)
Lemma degenerate_input_is_zero_witness :
  AntiSymmetricTensor.__new__ "t" [i; i] [a; b] 0 = Return S_Zero
  ∧ SingleSymmetryTensor.__new__ "u" [i; i; a; b] [(0, 1)] (-1) = Return S_Zero.
Proof.
  destruct (degenerate_input_is_zero (H := host)) as [Hast Hsst]. split.
  - apply Hast. left. exists 0, 1, i. split; [lia|]. split; reflexivity.
  - apply (Hsst "u" [i; i; a; b] [(0, 1)] (0, 1) i).
    + apply (bool_decide_unpack _). vm_compute. reflexivity.
    + repeat constructor; simpl; lia.
    + apply list_elem_of_here.
    + reflexivity.
    + reflexivity.
Defined.



(** C10, at work: the delta of [p] and [i] keeps [p] first and prefers the
    second index. *)
Lemma preferred_index_of_symbolic_delta_witness :
  ∃ x y,
    p = VIndex x ∧ i = VIndex y
    ∧ (Delta._get_preferred_index p i = Raise (NotImplementedError DifferentSpin)
       ↔ spin x ≠ spin y)
    ∧ (spin x = spin y →
       (space0 x = space0 y ∨ space0 y = "g"%char →
        Delta._get_preferred_index p i = Return (Some 0))
       ∧ (space0 x ≠ space0 y → space0 y ≠ "g"%char →
          space0 x = "g"%char
          ∧ Delta._get_preferred_index p i = Return (Some 1))
       ∧ (Delta._get_preferred_index p i = Return (Some 0)
          ∨ Delta._get_preferred_index p i = Return (Some 1))).
Proof.
  apply (DeltaFacts.preferred_index_of_symbolic_delta (H := host) 2 i p None p i None).
  vm_compute. reflexivity.
Defined.

End SampleFacts.

(** * Further properties *)

(** ** The oracle's keys *)

Section oracle.
Context `{Host}.

Lemma key_of_index_injective (x y : Index) :
  hash_breaks_ties H →
  AntiSymmetricTensor._sort_canonical (VIndex x)
  = AntiSymmetricTensor._sort_canonical (VIndex y) → x = y.
Proof. simpl. intros Hh [= ? ? ? ? ?]. by apply Hh. Qed.

Lemma keys_injective_on_indices (l : list val) :
  hash_breaks_ties H → forallb is_Index l = true →
  NoDup l → NoDup (AntiSymmetricTensor._sort_canonical <$> l).
Proof.
  intros Hh Hall Hnd. apply NoDup_fmap_2_strong; [|done].
  intros u v Hu Hv E.
  rewrite forallb_forall in Hall.
  pose proof (Hall u (proj1 (list_elem_of_In _ _) Hu)) as Iu.
  pose proof (Hall v (proj1 (list_elem_of_In _ _) Hv)) as Iv.
  destruct u as [x|], v as [y|]; try done.
  f_equal. by apply key_of_index_injective.
Qed.

Lemma duplicate_of_not_NoDup {A : Type} `{EqDecision A} (l : list A) :
  ¬ NoDup l → has_duplicate l.
Proof.
  induction l as [|x l IH]; intros Hnd.
  - destruct Hnd. constructor.
  - destruct (decide (x ∈ l)) as [Hin|Hin].
    + apply list_elem_of_lookup in Hin as [k Hk].
      exists 0, (S k), x. by repeat split.
    + destruct IH as (a & b & y & Hab & Ha & Hb).
      { intros Hl. apply Hnd. by constructor. }
      exists (S a), (S b), y. repeat split; [lia|done..].
Qed.

Lemma not_NoDup_of_duplicate {A : Type} (l : list A) :
  has_duplicate l → ¬ NoDup l.
Proof.
  intros (a & b & x & Hab & Ha & Hb) Hnd. apply Hab.
  by eapply NoDup_lookup.
Qed.

(** X1: the key of an [Index] is above the key of any other value; the keys
    of two values always compare, one below the other or both equal; and under
    the tie-break contract of the host, distinct indices have distinct
    keys. *)
Theorem sort_canonical_orders (v w : val) :
  (is_Index v = false → is_Index w = true →
   key_lt AntiSymmetricTensor._sort_canonical v w)
  ∧ (key_lt AntiSymmetricTensor._sort_canonical v w
     ∨ AntiSymmetricTensor._sort_canonical v = AntiSymmetricTensor._sort_canonical w
     ∨ key_lt AntiSymmetricTensor._sort_canonical w v)
  ∧ (hash_breaks_ties H → is_Index v = true → is_Index w = true →
     AntiSymmetricTensor._sort_canonical v = AntiSymmetricTensor._sort_canonical w →
     v = w).
Proof.
  split; [|split].
  - by destruct v, w.
  - apply key_compare_cases.
  - intros Hh Hv Hw E. destruct v as [x|], w as [y|]; try done.
    f_equal. by apply key_of_index_injective.
Qed.
End oracle.

(** ** AntiSymmetricTensor, further *)

Module AntiSymmetricTensorMore.
Import AntiSymmetricTensor AntiSymmetricTensorFacts.
Section more.
Context `{Host}.
Implicit Types (upper lower : list val) (t : Tensor).

Local Abbreviation K := _sort_canonical.

Lemma name_total_cmp : total_cmp name_compare.
Proof. apply (lex_pair_total_cmp _ _ Z_total_cmp ascii_total_cmp). Qed.

Lemma names_lt_asym (n1 n2 : list (Z * ascii)) :
  is_lt (list_compare name_compare n1 n2) = true →
  is_lt (list_compare name_compare n2 n1) = false.
Proof.
  rewrite (cmp_opp _ (list_total_cmp _ name_total_cmp) n1 n2).
  by destruct (list_compare name_compare n1 n2).
Qed.

Lemma names_lt_total (n1 n2 : list (Z * ascii)) :
  n1 ≠ n2 → is_lt (list_compare name_compare n1 n2) = false →
  is_lt (list_compare name_compare n2 n1) = true.
Proof.
  intros Hne. rewrite (cmp_opp _ (list_total_cmp _ name_total_cmp) n1 n2).
  destruct (list_compare name_compare n1 n2) eqn:E; try done.
  by apply (cmp_eq _ (list_total_cmp _ name_total_cmp)) in E.
Qed.

Lemma string_ltb_asym s1 s2 :
  String.ltb s1 s2 = true → String.ltb s2 s1 = false ∧ s1 ≠ s2.
Proof.
  unfold String.ltb. rewrite (cmp_opp _ string_total_cmp s1 s2).
  destruct (String.compare s1 s2) eqn:E; try done. intros _. split; [done|].
  intros ->. by rewrite (cmp_refl _ string_total_cmp) in E.
Qed.

Lemma forallb_app_comm {A} (f : A → bool) (l1 l2 : list A) :
  forallb f (l1 ++ l2)%list = forallb f (l2 ++ l1)%list.
Proof. rewrite !forallb_app. apply andb_comm. Qed.

(** The block in full, for groups that are all indices. *)
Lemma bra_ket_block_Index upper lower s bks :
  bks ≠ 0%Z → forallb is_Index (upper ++ lower)%list = true →
  ∃ su sl nu nl,
    space_string upper = Return su ∧ space_string lower = Return sl
    ∧ names upper = Return nu ∧ names lower = Return nl
    ∧ bra_ket_block upper lower s bks
      = if bool_decide (bks ∉ [1%Z; (-1)%Z]) then Raise (Inputerror InvalidBraKetSym)
        else if bool_decide (length upper ≠ length lower)
        then Raise (NotImplementedError UnequalBraKetLength)
        else if String.ltb sl su
             || (bool_decide (sl = su)
                 && is_lt (list_compare name_compare nl nu))
        then Return (lower, upper,
                     if bool_decide (bks = (-1)%Z) then s + 1 else s)
        else Return (upper, lower, s).
Proof.
  intros Hb Hall. unfold bra_ket_block.
  rewrite Hall, (bool_decide_true (bks ≠ 0%Z)) by done. simpl.
  rewrite forallb_app, andb_true_iff in Hall. destruct Hall as [Hu Hl].
  destruct (space_string_Index upper Hu) as (su & Esu).
  destruct (space_string_Index lower Hl) as (sl & Esl).
  destruct (names_Index upper Hu) as (nu & Enu).
  destruct (names_Index lower Hl) as (nl & Enl).
  exists su, sl, nu, nl. rewrite Esu, Esl, Enu, Enl. repeat split.
  destruct (bool_decide (bks ∉ [1%Z; (-1)%Z])); [done|].
  destruct (bool_decide (length upper ≠ length lower)); [done|].
  simpl. destruct (String.ltb sl su); [done|]. simpl.
  destruct (bool_decide (sl = su)); [|done]. simpl.
  by destruct (is_lt (list_compare name_compare nl nu)).
Qed.

Lemma bra_ket_block_plain upper lower s bks :
  bool_decide (bks ≠ 0%Z) && forallb is_Index (upper ++ lower)%list = false →
  bra_ket_block upper lower s bks = Return (upper, lower, s).
Proof. intros E. unfold bra_ket_block. by rewrite E. Qed.



(** The results of [__new__] by cases on the two sorts. *)
Lemma new_cases symbol upper lower bks :
  (¬ NoDup (K <$> upper) ∨ ¬ NoDup (K <$> lower))
  ∧ __new__ symbol upper lower bks = Return S_Zero
  ∨ ∃ ru rl,
      NoDup (K <$> upper) ∧ NoDup (K <$> lower)
      ∧ ru ≡ₚ upper ∧ rl ≡ₚ lower
      ∧ StronglySorted (key_lt K) ru ∧ StronglySorted (key_lt K) rl
      ∧ __new__ symbol upper lower bks
        = '(u, l, d) <- bra_ket_block ru rl 0 bks ;
          let t := {| symbol := symbol; upper := u; lower := l;
                      bra_ket_sym := bks |} in
          if bool_decide ((inversions K upper + d + inversions K lower) mod 2 ≠ 0)
          then Return (Minus t) else Return (Plus t).
Proof.
  destruct (decide (NoDup (K <$> upper))) as [Hu|Hu].
  - destruct (decide (NoDup (K <$> lower))) as [Hl|Hl].
    + right.
      destruct (sort_fermions_nodup K upper Hu) as (ru & Eu & Hpu & Hsu).
      destruct (sort_fermions_nodup K lower Hl) as (rl & El & Hpl & Hsl).
      exists ru, rl. repeat split; try done. by apply new_sorted.
    + left. split; [by right|].
      apply new_pauli_lower. by apply sort_fermions_dup.
  - left. split; [by left|]. apply new_pauli_upper. by apply sort_fermions_dup.
Qed.

(** X2: the constructor returns zero exactly when two entries of the upper
    group, or two of the lower group, have the same key; for groups of
    [Index] values under the tie-break contract, exactly when a group holds
    the same index at two positions. *)
Theorem zero_iff_duplicate symbol upper lower bks :
  (__new__ symbol upper lower bks = Return S_Zero
   ↔ ¬ NoDup (K <$> upper) ∨ ¬ NoDup (K <$> lower))
  ∧ (hash_breaks_ties H → forallb is_Index (upper ++ lower)%list = true →
     (__new__ symbol upper lower bks = Return S_Zero
      ↔ has_duplicate upper ∨ has_duplicate lower)).
Proof.
  assert (__new__ symbol upper lower bks = Return S_Zero
          ↔ ¬ NoDup (K <$> upper) ∨ ¬ NoDup (K <$> lower)) as Hkeys.
  { destruct (new_cases symbol upper lower bks)
      as [[Hd ->]|(ru & rl & Hu & Hl & _ & _ & _ & _ & ->)]; [tauto|].
    split; [|tauto].
    destruct (bra_ket_block ru rl 0 bks) as [[[u l] d]|e|]; cbn [bind];
      [|done..].
    by destruct (bool_decide _). }
  split; [done|]. intros Hh Hall. rewrite Hkeys.
  rewrite forallb_app, andb_true_iff in Hall. destruct Hall as [Iu Il].
  split.
  - intros [Hd|Hd]; [left|right]; apply duplicate_of_not_NoDup; intros Hnd;
      apply Hd; by apply keys_injective_on_indices.
  - intros [Hd|Hd]; [left|right]; intros Hnd%NoDup_fmap_1;
      by apply not_NoDup_of_duplicate in Hd.
Qed.


(** The stored tensor and its sign, when the constructor returns one. *)
Lemma new_returns symbol upper lower bks r t :
  __new__ symbol upper lower bks = Return r → carried r = Some t →
  ∃ ru rl d,
    NoDup (K <$> upper) ∧ NoDup (K <$> lower)
    ∧ ru ≡ₚ upper ∧ rl ≡ₚ lower
    ∧ StronglySorted (key_lt K) ru ∧ StronglySorted (key_lt K) rl
    ∧ bra_ket_block ru rl 0 bks
      = Return (AntiSymmetricTensor.upper t, AntiSymmetricTensor.lower t, d)
    ∧ symbol = AntiSymmetricTensor.symbol t ∧ bks = bra_ket_sym t
    ∧ r = (if bool_decide ((inversions K upper + d + inversions K lower) mod 2 ≠ 0)
           then Minus t else Plus t).
Proof.
  intros Hnew Ht.
  destruct (new_cases symbol upper lower bks)
    as [[Hd E]|(ru & rl & Hu & Hl & Hpu & Hpl & Hsu & Hsl & E)];
    rewrite E in Hnew.
  { injection Hnew as <-. done. }
  destruct (bra_ket_block ru rl 0 bks) as [[[u l] d]|e|] eqn:Hb;
    cbn [bind] in Hnew; [|done..].
  exists ru, rl, d.
  destruct (bool_decide _) eqn:Ep in Hnew; injection Hnew as <-;
    simpl in Ht; injection Ht as <-; rewrite Ep; by repeat split.
Qed.


(** The block leaves its own result alone. *)
Lemma bra_ket_block_stable upper lower s bks u l d :
  bra_ket_block upper lower s bks = Return (u, l, d) →
  bra_ket_block u l 0 bks = Return (u, l, 0).
Proof.
  intros Hb.
  destruct (bool_decide (bks ≠ 0%Z)
            && forallb is_Index (upper ++ lower)%list) eqn:E.
  - apply andb_true_iff in E as [Hz%bool_decide_eq_true Hall].
    pose proof Hall as Hall'. rewrite forallb_app_comm in Hall'.
    destruct (bra_ket_block_Index upper lower s _ Hz Hall)
      as (su & sl & nu & nl & Esu & Esl & Enu & Enl & Eb).
    rewrite Eb in Hb.
    case_bool_decide as Hin; [done|]. case_bool_decide as Hlen; [done|].
    destruct (String.ltb sl su || _) eqn:Esw; injection Hb as <- <- _.
    + destruct (bra_ket_block_Index lower upper 0 _ Hz Hall')
        as (su' & sl' & nu' & nl' & Esu' & Esl' & Enu' & Enl' & ->).
      rewrite Esl in Esu'. rewrite Esu in Esl'. rewrite Enl in Enu'.
      rewrite Enu in Enl'. simplify_eq.
      rewrite (bool_decide_false (bks ∉ _)) by tauto.
      rewrite (bool_decide_false (length lower ≠ _)) by (intros ?; congruence).
      apply orb_true_iff in Esw as [Hlt|[Heq%bool_decide_eq_true Hn]%andb_true_iff].
      * apply string_ltb_asym in Hlt as [-> Hne].
        by rewrite (bool_decide_false (sl' = su')) by congruence.
      * subst. rewrite (names_lt_asym _ _ Hn), andb_false_r.
        destruct (String.ltb sl' sl') eqn:El; [|done].
        by apply string_ltb_asym in El as [_ ?].
    + destruct (bra_ket_block_Index upper lower 0 _ Hz Hall)
        as (su' & sl' & nu' & nl' & Esu' & Esl' & Enu' & Enl' & ->).
      assert (su' = su) as -> by congruence.
      assert (sl' = sl) as -> by congruence.
      assert (nu' = nu) as -> by congruence.
      assert (nl' = nl) as -> by congruence.
      rewrite (bool_decide_false (bks ∉ _)) by tauto.
      rewrite (bool_decide_false (length upper ≠ _)) by (intros ?; congruence).
      by rewrite Esw.
  - rewrite bra_ket_block_plain in Hb by done. injection Hb as <- <- _.
    by rewrite bra_ket_block_plain.
Qed.

(** X5: constructing again from the groups a tensor stores, with its symbol
    and flag, returns that tensor with no sign. *)
Theorem new_idempotent symbol upper lower bks r t :
  __new__ symbol upper lower bks = Return r → carried r = Some t →
  __new__ symbol (AntiSymmetricTensor.upper t) (AntiSymmetricTensor.lower t) bks
  = Return (Plus t).
Proof.
  intros Hnew Ht.
  destruct (new_returns _ _ _ _ _ _ Hnew Ht)
    as (ru & rl & d & _ & _ & Hpu & Hpl & Hsu & Hsl & Hb & -> & -> & _).
  assert (StronglySorted (key_lt K) (AntiSymmetricTensor.upper t)
          ∧ StronglySorted (key_lt K) (AntiSymmetricTensor.lower t)) as [Hu Hl].
  { apply bra_ket_block_groups in Hb as [[-> ->]|[-> ->]]; by split. }
  rewrite (new_sorted _ _ _ _ _ 0 _ 0 (sort_fermions_sorted K _ Hu)
             (sort_fermions_sorted K _ Hl)).
  rewrite (bra_ket_block_stable _ _ _ _ _ _ _ Hb). cbn [bind]. by destruct t.
Qed.

(** X6: reordering the entries of the upper group and of the lower group
    changes the result at most by its sign; the sign changes exactly when the
    numbers of inversions of the two inputs differ in parity. *)
Theorem reordering_changes_sign_only symbol upper lower upper' lower' bks :
  upper ≡ₚ upper' → lower ≡ₚ lower' →
  __new__ symbol upper' lower' bks
  = (if bool_decide ((inversions K upper + inversions K lower
                      + inversions K upper' + inversions K lower') mod 2 = 0)
     then __new__ symbol upper lower bks
     else negated (__new__ symbol upper lower bks)).
Proof.
  intros Hpu Hpl.
  destruct (new_cases symbol upper lower bks)
    as [[Hd E]|(ru & rl & Hu & Hl & Hru & Hrl & Hsu & Hsl & E)]; rewrite E.
  - destruct (new_cases symbol upper' lower' bks)
      as [[Hd' ->]|(ru' & rl' & Hu' & Hl' & _)].
    + by destruct (bool_decide _).
    + rewrite <- Hpu in Hu'. rewrite <- Hpl in Hl'. tauto.
  - destruct (new_cases symbol upper' lower' bks)
      as [[Hd' _]|(ru' & rl' & Hu' & Hl' & Hru' & Hrl' & Hsu' & Hsl' & ->)].
    { rewrite <- Hpu, <- Hpl in Hd'. tauto. }
    assert (ru' = ru) as ->.
    { apply (sorted_perm_eq K); [done..|]. by rewrite Hru, Hru'. }
    assert (rl' = rl) as ->.
    { apply (sorted_perm_eq K); [done..|]. by rewrite Hrl, Hrl'. }
    destruct (bra_ket_block ru rl 0 bks) as [[[u l] d]|e|]; cbn [bind];
      [|by destruct (bool_decide _)..].
    set (a := inversions K upper). set (b := inversions K lower).
    set (a' := inversions K upper'). set (b' := inversions K lower').
    euclid2 (a + b + a' + b'). euclid2 (a' + d + b'). euclid2 (a + d + b).
    repeat case_bool_decide; simpl; try done; lia.
Qed.

(** X7: without bra/ket symmetry the result is negated exactly when the
    inversions of the two given groups add up to an odd number. *)
Theorem sign_is_parity_of_inversions symbol upper lower r t :
  __new__ symbol upper lower 0 = Return r → carried r = Some t →
  (r = Minus t ↔ (inversions K upper + inversions K lower) mod 2 = 1)
  ∧ (r = Plus t ↔ (inversions K upper + inversions K lower) mod 2 = 0).
Proof.
  intros Hnew Ht.
  destruct (new_returns _ _ _ _ _ _ Hnew Ht)
    as (ru & rl & d & _ & _ & _ & _ & _ & _ & Hb & _ & _ & Hr).
  rewrite bra_ket_block_plain in Hb
    by (by rewrite (bool_decide_false (0%Z ≠ 0%Z)) by tauto).
  injection Hb as _ _ <-. rewrite Nat.add_0_r in Hr. clear Hnew Ht.
  set (n := inversions K upper + inversions K lower) in *. euclid2 n.
  subst r. case_bool_decide; split; split; intros; try done; lia.
Qed.

(** The block on the two groups given in either order. *)
Lemma bra_ket_block_exchange upper lower bks u l d :
  bks ≠ 0%Z → forallb is_Index (upper ++ lower)%list = true →
  bra_ket_block upper lower 0 bks = Return (u, l, d) →
  (space_string u, names u) ≠ (space_string l, names l) →
  ∃ d', bra_ket_block lower upper 0 bks = Return (u, l, d')
        ∧ d + d' = if bool_decide (bks = (-1)%Z) then 1 else 0.
Proof.
  intros Hz Hall Hb Hne.
  pose proof Hall as Hall'. rewrite forallb_app_comm in Hall'.
  destruct (bra_ket_block_Index upper lower 0 _ Hz Hall)
    as (su & sl & nu & nl & Esu & Esl & Enu & Enl & Eb).
  destruct (bra_ket_block_Index lower upper 0 _ Hz Hall')
    as (su' & sl' & nu' & nl' & Esu' & Esl' & Enu' & Enl' & ->).
  assert (su' = sl) as -> by congruence.
  assert (sl' = su) as -> by congruence.
  assert (nu' = nl) as -> by congruence.
  assert (nl' = nu) as -> by congruence.
  rewrite Eb in Hb. clear Eb.
  case_bool_decide as Hin; [done|]. case_bool_decide as Hlen; [done|].
  rewrite (bool_decide_false (length lower ≠ _)) by (intros ?; congruence).
  destruct (String.ltb sl su || _) eqn:Esw; injection Hb as <- <- <-.
  - exists 0. split; [|by destruct (bool_decide (bks = _))].
    apply orb_true_iff in Esw as [Hlt|[Heq%bool_decide_eq_true Hn]%andb_true_iff].
    + apply string_ltb_asym in Hlt as [-> Hne'].
      by rewrite (bool_decide_false (su = sl)) by congruence.
    + subst. rewrite (names_lt_asym _ _ Hn), andb_false_r.
      destruct (String.ltb su su) eqn:El; [|done].
      by apply string_ltb_asym in El as [_ ?].
  - exists (if bool_decide (bks = (-1)%Z) then 1 else 0). split; [|done].
    apply orb_false_iff in Esw as [Hlt Hn].
    rewrite Esu, Esl, Enu, Enl in Hne.
    destruct (decide (su = sl)) as [->|Hs].
    + rewrite (bool_decide_true (sl = sl)) in Hn |- * by done. simpl in Hn.
      rewrite (names_lt_total nl nu), orb_true_r by congruence. done.
    + rewrite (string_ltb_total sl su) by congruence. done.
Qed.

(** X8: for a nonzero flag, handing the two groups of indices over in the
    other order gives the same stored tensor, negated when the flag is -1,
    provided the two stored groups differ in their space strings or in their
    names. *)
Theorem bra_ket_exchange symbol upper lower bks r t :
  bks ≠ 0%Z → forallb is_Index (upper ++ lower)%list = true →
  __new__ symbol upper lower bks = Return r → carried r = Some t →
  (space_string (AntiSymmetricTensor.upper t), names (AntiSymmetricTensor.upper t))
  ≠ (space_string (AntiSymmetricTensor.lower t), names (AntiSymmetricTensor.lower t)) →
  __new__ symbol lower upper bks
  = Return (if bool_decide (bks = (-1)%Z) then negate r else r).
Proof.
  intros Hz Hall Hnew Ht Hne.
  destruct (new_returns _ _ _ _ _ _ Hnew Ht)
    as (ru & rl & d & Hu & Hl & Hpu & Hpl & Hsu & Hsl & Hb & Hs & Hk & ->).
  assert (forallb is_Index (ru ++ rl)%list = true) as Hall'.
  { rewrite <- Hall. apply forallb_perm. by rewrite Hpu, Hpl. }
  destruct (bra_ket_block_exchange _ _ _ _ _ _ Hz Hall' Hb Hne) as (d' & Hb' & Hd).
  destruct (sort_fermions_nodup K upper Hu) as (ru' & Eu & Hpu' & Hsu').
  destruct (sort_fermions_nodup K lower Hl) as (rl' & El & Hpl' & Hsl').
  assert (ru' = ru) as ->.
  { apply (sorted_perm_eq K); [done..|]. by rewrite Hpu, Hpu'. }
  assert (rl' = rl) as ->.
  { apply (sorted_perm_eq K); [done..|]. by rewrite Hpl, Hpl'. }
  rewrite (new_sorted _ _ _ _ _ _ _ _ El Eu), Hb'. cbn [bind].
  destruct t as [s u l k]. simpl in Hs, Hk, Hb, Hb', Hne. subst s k.
  set (a := inversions K upper) in *. set (b := inversions K lower) in *.
  euclid2 (a + d + b). euclid2 (b + d' + a). revert Hd.
  destruct (bool_decide (bks = _)); intros Hd; repeat case_bool_decide;
    cbn [negate]; try done; lia.
Qed.

(** X9: the constructor with a symmetry flag is the constructor without one
    followed by [add_bra_ket_sym], the sign of the first result carried over;
    errors included. *)
Theorem new_by_add_bra_ket_sym symbol upper lower r0 t0 sym :
  __new__ symbol upper lower 0 = Return r0 → carried r0 = Some t0 →
  __new__ symbol upper lower sym
  = match r0 with
    | Minus _ => negated (add_bra_ket_sym t0 sym)
    | _ => add_bra_ket_sym t0 sym
    end.
Proof.
  intros Hnew Ht.
  destruct (new_returns _ _ _ _ _ _ Hnew Ht)
    as (ru & rl & d & Hu & Hl & Hpu & Hpl & Hsu & Hsl & Hb & Hs & Hk & Hr).
  rewrite bra_ket_block_plain in Hb
    by (by rewrite (bool_decide_false (0%Z ≠ 0%Z)) by tauto).
  injection Hb as Eu El <-. rewrite Nat.add_0_r in Hr.
  destruct (decide (sym = 0%Z)) as [->|Hz].
  - rewrite Hnew. unfold add_bra_ket_sym.
    rewrite (bool_decide_false (0%Z ≠ 0%Z)) by tauto. simpl.
    destruct r0; simpl in Ht; by simplify_eq.
  - unfold add_bra_ket_sym.
    rewrite (bool_decide_true (sym ≠ 0%Z)), (bool_decide_true (_ = 0%Z)) by done.
    simpl. rewrite <- Hs, <- Eu, <- El.
    rewrite (new_sorted _ ru rl _ _ 0 _ 0 (sort_fermions_sorted K _ Hsu)
               (sort_fermions_sorted K _ Hsl)).
    destruct (sort_fermions_nodup K upper Hu) as (ru' & Eu' & Hpu' & Hsu').
    destruct (sort_fermions_nodup K lower Hl) as (rl' & El' & Hpl' & Hsl').
    assert (ru' = ru) as ->.
    { apply (sorted_perm_eq K); [done..|]. by rewrite Hpu, Hpu'. }
    assert (rl' = rl) as ->.
    { apply (sorted_perm_eq K); [done..|]. by rewrite Hpl, Hpl'. }
    rewrite (new_sorted _ _ _ _ _ _ _ _ Eu' El').
    destruct (bra_ket_block ru rl 0 sym) as [[[u l] d]|e|]; cbn [bind];
      [|by destruct r0..].
    set (a := inversions K upper) in *. set (b := inversions K lower) in *.
    euclid2 (a + b). euclid2 (a + d + b). euclid2 (0 + d + 0).
    subst r0. unfold negated.
    repeat case_bool_decide; simpl; try done; lia.
Qed.

(** X10: on a tensor whose groups are in key order and that carries no
    symmetry yet, [add_bra_ket_sym] with a nonzero flag returns a tensor of
    the same symbol carrying the flag, whose groups are those of the given
    tensor, in place and without a sign, or exchanged and negated exactly
    for the flag -1. *)
Theorem add_bra_ket_sym_result t sym r t' :
  canonical t → sym ≠ 0%Z →
  add_bra_ket_sym t sym = Return r → carried r = Some t' →
  bra_ket_sym t = 0%Z
  ∧ AntiSymmetricTensor.symbol t' = AntiSymmetricTensor.symbol t
  ∧ bra_ket_sym t' = sym
  ∧ ((AntiSymmetricTensor.upper t' = AntiSymmetricTensor.upper t
      ∧ AntiSymmetricTensor.lower t' = AntiSymmetricTensor.lower t
      ∧ r = Plus t')
     ∨ (AntiSymmetricTensor.upper t' = AntiSymmetricTensor.lower t
        ∧ AntiSymmetricTensor.lower t' = AntiSymmetricTensor.upper t
        ∧ sym ∈ [1%Z; (-1)%Z]
        ∧ r = if bool_decide (sym = (-1)%Z) then Minus t' else Plus t')).
Proof.
  intros [Hsu Hsl] Hz Hadd Ht. unfold add_bra_ket_sym in Hadd.
  rewrite (bool_decide_true (sym ≠ 0%Z)), (bool_decide_false (sym = 0%Z)) in Hadd
    by done.
  simpl in Hadd. case_bool_decide as Hk; [|done]. split; [done|].
  rewrite (new_sorted _ _ _ _ _ 0 _ 0 (sort_fermions_sorted K _ Hsu)
             (sort_fermions_sorted K _ Hsl)) in Hadd.
  destruct (bool_decide (sym ≠ 0%Z)
            && forallb is_Index (AntiSymmetricTensor.upper t
                                 ++ AntiSymmetricTensor.lower t)%list) eqn:E.
  - apply andb_true_iff in E as [_ Hall].
    destruct (bra_ket_block_Index _ _ 0 _ Hz Hall)
      as (su & sl & nu & nl & _ & _ & _ & _ & Eb).
    rewrite Eb in Hadd. clear Eb.
    case_bool_decide as Hin; [done|]. case_bool_decide as Hlen; [done|].
    destruct (_ || _); cbn [bind] in Hadd.
    + destruct (bool_decide (sym = (-1)%Z)); simpl in Hadd;
        injection Hadd as <-; simpl in Ht; injection Ht as <-; simpl;
        (split; [done|]); (split; [done|]); right; repeat split; tauto.
    + injection Hadd as <-. simpl in Ht. injection Ht as <-. simpl.
      split; [done|]. split; [done|]. by left.
  - rewrite bra_ket_block_plain in Hadd by done. cbn [bind] in Hadd.
    injection Hadd as <-. simpl in Ht. injection Ht as <-. simpl.
    split; [done|]. split; [done|]. by left.
Qed.
End more.
End AntiSymmetricTensorMore.

Module DeltaMore.
Import Delta DeltaFacts.
Section more.
Context `{Host}.
Implicit Types (i j a b : val) (r : option Range).

Local Abbreviation K := _sort_canonical.

(** [i != min(i, j, key)] holds exactly when the key of [j] is the smaller. *)
Lemma min_by_test i j :
  bool_decide (i ≠ min_by K i j) = key_ltb (K j) (K i).
Proof.
  unfold min_by. destruct (key_ltb (K j) (K i)) eqn:E.
  - apply bool_decide_true. intros ->. unfold key_ltb in E.
    by rewrite (cmp_refl _ key_total_cmp) in E.
  - apply bool_decide_false. tauto.
Qed.

Lemma outside_range_false_sym i j r :
  outside_range i j r = Return false → outside_range j i r = Return false.
Proof.
  destruct r as [[dinf dsup]|]; [|done]. simpl.
  destruct (diff_gt_zero dinf i) as [[|]|], (diff_gt_zero dinf j) as [[|]|],
    (diff_lt_zero dsup i) as [[|]|], (diff_lt_zero dsup j) as [[|]|]; done.
Qed.

Lemma outside_range_decided i j r :
  outside_range i j r = Return false → range_decided i j r.
Proof.
  destruct r as [[dinf dsup]|]; [|done]. simpl.
  destruct (diff_gt_zero dinf i) as [[|]|], (diff_gt_zero dinf j) as [[|]|],
    (diff_lt_zero dsup i) as [[|]|], (diff_lt_zero dsup j) as [[|]|];
    try done; intros _; repeat split; by eexists.
Qed.

Lemma outside_range_raises i j r e :
  outside_range i j r = Raise e → e = TypeError ∧ ¬ range_decided i j r.
Proof.
  destruct r as [[dinf dsup]|]; [|done]. simpl.
  destruct (diff_gt_zero dinf i) as [[|]|], (diff_gt_zero dinf j) as [[|]|],
    (diff_lt_zero dsup i) as [[|]|], (diff_lt_zero dsup j) as [[|]|];
    simpl; try done; intros [= <-]; (split; [done|]);
    intros (H1 & H2 & H3 & H4); by (destruct H1 || destruct H2 || destruct H3
                                     || destruct H4).
Qed.

(** What rules 1 to 4 raise. *)
Lemma checks_raises i j r e :
  checks i j r = Raise e →
  (e = TypeError ∧ ¬ range_decided i j r)
  ∨ (e = AttributeError ∧ is_Index i && is_Index j = false
     ∧ outside_range i j r = Return false ∧ diff_is_zero i j = None).
Proof.
  unfold checks.
  destruct (outside_range i j r) as [[|]|e'|] eqn:Ho; cbn [bind]; try done.
  - destruct (diff_is_zero i j) as [[|]|]; simpl; try done.
    destruct i as [x|o], j as [y|o']; simpl; try (intros [= <-]; right; done).
    repeat case_match; done.
  - intros [= ->]. left. by apply outside_range_raises.
Qed.

(** Rules 1 to 4 on two indices in closed form. *)
Lemma checks_on_indices (x y : Index) r :
  outside_range (VIndex x) (VIndex y) r = Return false →
  diff_is_zero (VIndex x) (VIndex y) = None →
  checks (VIndex x) (VIndex y) r
  = Return (if (bool_decide (space0 x ≠ "g"%char)
                && bool_decide (space0 y ≠ "g"%char)
                && bool_decide (space0 x ≠ space0 y))
               || (bool_decide (spin x ≠ ""%string)
                   && bool_decide (spin y ≠ ""%string)
                   && bool_decide (spin x ≠ spin y))
            then Some Zero else None).
Proof.
  intros Ho Hd. unfold checks. rewrite Ho, Hd. simpl.
  destruct (_ && _ && bool_decide (space0 x ≠ space0 y)); [done|]. simpl.
  by destruct (_ && _ && bool_decide (spin x ≠ spin y)).
Qed.

Lemma rules_sym (x y : Index) :
  (bool_decide (space0 x ≠ "g"%char) && bool_decide (space0 y ≠ "g"%char)
   && bool_decide (space0 x ≠ space0 y))
  || (bool_decide (spin x ≠ ""%string) && bool_decide (spin y ≠ ""%string)
      && bool_decide (spin x ≠ spin y))
  = (bool_decide (space0 y ≠ "g"%char) && bool_decide (space0 x ≠ "g"%char)
     && bool_decide (space0 y ≠ space0 x))
    || (bool_decide (spin y ≠ ""%string) && bool_decide (spin x ≠ ""%string)
        && bool_decide (spin y ≠ spin x)).
Proof.
  f_equal.
  - rewrite (andb_comm (bool_decide (space0 y ≠ _))). f_equal.
    apply bool_decide_ext. split; congruence.
  - rewrite (andb_comm (bool_decide (spin y ≠ _))). f_equal.
    apply bool_decide_ext. split; congruence.
Qed.

(** X11: a delta object the constructor returned is a fixed point: the
    constructor called on its two stored indices and its stored range, with
    any fuel, returns that object again. *)
Theorem symbolic_delta_is_stable fuel i j r a b r' fuel' :
  Delta fuel i j r = Return (KroneckerDelta a b r') → 1 ≤ fuel' →
  Delta fuel' a b r' = Return (KroneckerDelta a b r').
Proof.
  intros (-> & _ & Hm & Hc)%Delta_symbolic Hf.
  destruct fuel' as [|fuel']; [lia|].
  rewrite Delta_S, Hc. cbn [bind].
  by rewrite bool_decide_false by (rewrite Hm; tauto).
Qed.

(** X12: the constructor raises nothing but a type error, and then the host
    leaves a relational of the range test undecided, or an attribute error,
    and then one of the two arguments is no [Index], the range does not
    exclude them and the host cannot decide their difference.  On two [Index]
    values whose range relationals are decided it returns a value, with two
    units of fuel or more. *)
Theorem Delta_raises fuel i j r :
  (∀ e, Delta fuel i j r = Raise e →
     (e = TypeError ∧ ¬ range_decided i j r)
     ∨ (e = AttributeError ∧ is_Index i && is_Index j = false
        ∧ outside_range i j r = Return false ∧ diff_is_zero i j = None))
  ∧ (2 ≤ fuel → is_Index i = true → is_Index j = true → range_decided i j r →
     ∃ v, Delta fuel i j r = Return v).
Proof.
  assert (∀ e, Delta fuel i j r = Raise e →
     (e = TypeError ∧ ¬ range_decided i j r)
     ∨ (e = AttributeError ∧ is_Index i && is_Index j = false
        ∧ outside_range i j r = Return false ∧ diff_is_zero i j = None)) as Hr.
  { intros e. destruct fuel as [|fuel]; [done|]. rewrite Delta_S.
    destruct (checks i j r) as [[v|]|e'|] eqn:Hc; cbn [bind]; try done.
    - case_bool_decide as Hmin; [|done]. apply min_by_swap in Hmin.
      destruct fuel as [|fuel]; [done|]. rewrite Delta_S.
      destruct (checks j i r) as [[v|]|e'|] eqn:Hc'; cbn [bind]; try done.
      + rewrite bool_decide_false by (rewrite Hmin; tauto). done.
      + intros [= ->]. exfalso.
        destruct (checks_index _ _ _ Hc) as (x & y & -> & ->).
        assert (outside_range (VIndex x) (VIndex y) r = Return false) as Ho.
        { revert Hc. unfold checks.
          by destruct (outside_range _ _ r) as [[|]| |]. }
        apply checks_raises in Hc' as [[_ Hn]|(_ & Hi & _)]; [|done].
        apply Hn. apply outside_range_false_sym in Ho.
        by apply outside_range_decided.
    - intros [= ->]. by apply checks_raises. }
  split; [done|]. intros Hf Hi Hj Hd.
  pose proof (Delta_fuel (fuel - 2) i j r) as [E Ht].
  replace (S (S (fuel - 2))) with fuel in E by lia. rewrite <- E in Ht.
  destruct (Delta fuel i j r) as [v|e|] eqn:Ed; [by exists v| |done].
  destruct (Hr e eq_refl) as [[_ Hn]|(_ & Hn & _)]; [done|].
  by rewrite Hi, Hj in Hn.
Qed.

(** X13: for two indices that the range does not exclude and whose
    difference the host cannot decide in either order, the constructor
    returns zero when their spaces differ and neither is the wildcard, or
    their spins differ and neither is empty; otherwise the delta object that
    holds the index of the smaller key first, and the range. *)
Theorem Delta_of_indices fuel (x y : Index) r :
  2 ≤ fuel →
  outside_range (VIndex x) (VIndex y) r = Return false →
  diff_is_zero (VIndex x) (VIndex y) = None →
  diff_is_zero (VIndex y) (VIndex x) = None →
  Delta fuel (VIndex x) (VIndex y) r
  = Return (if (bool_decide (space0 x ≠ "g"%char)
                && bool_decide (space0 y ≠ "g"%char)
                && bool_decide (space0 x ≠ space0 y))
               || (bool_decide (spin x ≠ ""%string)
                   && bool_decide (spin y ≠ ""%string)
                   && bool_decide (spin x ≠ spin y))
            then Zero
            else if key_ltb (K (VIndex y)) (K (VIndex x))
                 then KroneckerDelta (VIndex y) (VIndex x) r
                 else KroneckerDelta (VIndex x) (VIndex y) r).
Proof.
  intros Hf Ho Hd Hd'. rewrite (Delta_enough _ _ _ _ Hf).
  rewrite (Delta_S 1), (checks_on_indices x y r Ho Hd).
  destruct (_ || _) eqn:E; cbn [bind]; [done|].
  rewrite min_by_test.
  destruct (key_ltb (K (VIndex y)) (K (VIndex x))) eqn:Hlt; [|done].
  rewrite (Delta_S 0), (checks_on_indices y x r (outside_range_false_sym _ _ _ Ho) Hd').
  rewrite (rules_sym y x), E.
  cbn [bind]. rewrite min_by_test. unfold key_ltb in *.
  rewrite (cmp_opp _ key_total_cmp (K (VIndex y)) (K (VIndex x))).
  by destruct (key_compare (K (VIndex y)) (K (VIndex x))).
Qed.

(** X14: the two arguments of a delta object the constructor returned are
    [Index] values the range does not exclude and whose difference the host
    cannot decide; their spaces are equal or one is the wildcard, their spins
    are equal or one is empty, and the key of the second is not below that
    of the first. *)
Theorem symbolic_delta_invariant fuel i j r a b r' :
  Delta fuel i j r = Return (KroneckerDelta a b r') →
  ∃ x y,
    a = VIndex x ∧ b = VIndex y
    ∧ outside_range a b r' = Return false
    ∧ diff_is_zero a b = None
    ∧ (space0 x = space0 y ∨ space0 x = "g"%char ∨ space0 y = "g"%char)
    ∧ (spin x = spin y ∨ spin x = ""%string ∨ spin y = ""%string)
    ∧ key_ltb (K b) (K a) = false.
Proof.
  intros (-> & _ & Hm & Hc)%Delta_symbolic.
  destruct (checks_index _ _ _ Hc) as (x & y & -> & ->). exists x, y.
  split; [done|]. split; [done|].
  assert (key_ltb (K (VIndex y)) (K (VIndex x)) = false) as Hk.
  { rewrite <- min_by_test. apply bool_decide_false. rewrite Hm. tauto. }
  revert Hc. unfold checks.
  destruct (outside_range (VIndex x) (VIndex y) r) as [[|]| |]; cbn [bind];
    try done.
  destruct (diff_is_zero (VIndex x) (VIndex y)) as [[|]|]; simpl; try done.
  destruct (decide (space0 x = space0 y)), (decide (space0 x = "g"%char)),
    (decide (space0 y = "g"%char)), (decide (spin x = spin y)),
    (decide (spin x = ""%string)), (decide (spin y = ""%string));
    repeat case_bool_decide; simpl; try done; intros _; tauto.
Qed.

(** X15: on two [Index] values [_get_preferred_index] never raises an
    attribute error, returns a position only for equal spins, and the index
    at the position it returns has the wildcard space only if both indices
    have it; it returns no position exactly when the spins are equal and the
    spaces are two different ones, none the wildcard. *)
Theorem preferred_index_is_no_wildcard (x y : Index) :
  _get_preferred_index (VIndex x) (VIndex y) ≠ Raise AttributeError
  ∧ (∀ k, _get_preferred_index (VIndex x) (VIndex y) = Return (Some k) →
       spin x = spin y
       ∧ ∃ z, [x; y] !! k = Some z
              ∧ (space0 z = "g"%char →
                 space0 x = "g"%char ∧ space0 y = "g"%char))
  ∧ (_get_preferred_index (VIndex x) (VIndex y) = Return None
     ↔ spin x = spin y ∧ space0 x ≠ space0 y
       ∧ space0 x ≠ "g"%char ∧ space0 y ≠ "g"%char).
Proof.
  unfold _get_preferred_index. simpl.
  repeat case_bool_decide; (split; [done|]); split;
    try (intros k [= <-]; split; [tauto|]; eexists; split; [done|]; simpl;
         intros; split; congruence);
    try done; split; try done; tauto.
Qed.
End more.
End DeltaMore.

Module SingleSymmetryTensorMore.
Import SingleSymmetryTensor SingleSymmetryTensorFacts.
Section more.
Context `{Host}.
Implicit Types (indices : list val) (perms : list (nat * nat)) (st : Locals).

Local Abbreviation K := _sort_canonical.

(** The three ways a round of the loop ends. *)
Lemma loop_body_cases indices factor st perm :
  match indices !! fst perm, indices !! snd perm with
  | Some p, Some q =>
      if bool_decide (factor = (-1)%Z) && bool_decide (p = q)
      then loop_body indices factor st perm = Return None
      else ∃ st', loop_body indices factor st perm = Return (Some st')
  | _, _ => loop_body indices factor st perm = Raise IndexError
  end.
Proof.
  unfold loop_body, getitem.
  destruct (sorted_cases perm) as [E|E]; rewrite E; simpl.
  - destruct (indices !! fst perm) as [p|], (indices !! snd perm) as [q|];
      simpl; try done.
    destruct (_ && _); [done|by eexists].
  - destruct (indices !! fst perm) as [p|], (indices !! snd perm) as [q|];
      simpl; try done.
    rewrite (bool_decide_ext (q = p) (p = q)) by (split; congruence).
    destruct (_ && _); [done|by eexists].
Qed.


Lemma loop_None indices factor perms st :
  loop indices factor perms st = Return None →
  factor = (-1)%Z
  ∧ ∃ perm p, perm ∈ perms ∧ indices !! fst perm = Some p
              ∧ indices !! snd perm = Some p.
Proof.
  revert st. induction perms as [|perm perms IH]; intros st; [done|]. simpl.
  pose proof (loop_body_cases indices factor st perm) as Hc.
  destruct (indices !! fst perm) as [p|] eqn:Hp;
    [destruct (indices !! snd perm) as [q|] eqn:Hq|]; [|by rewrite Hc..].
  destruct (_ && _) eqn:E.
  - apply andb_true_iff in E as [Hf%bool_decide_eq_true ->%bool_decide_eq_true].
    intros _. split; [done|]. exists perm, q. split; [left|done].
  - destruct Hc as [st' ->]. cbn [bind]. intros (-> & perm' & p' & Hin & Hr)%IH.
    split; [done|]. exists perm', p'. split; [by right|done].
Qed.

(** The loop runs to its end exactly when every pair is at positions of the
    sequence and, for the factor -1, holds two different indices. *)
Lemma loop_Some indices factor perms st :
  (∃ st', loop indices factor perms st = Return (Some st'))
  ↔ Forall (λ perm, ∃ p q, indices !! fst perm = Some p
                           ∧ indices !! snd perm = Some q
                           ∧ ¬ (factor = (-1)%Z ∧ p = q)) perms.
Proof.
  revert st. induction perms as [|perm perms IH]; intros st.
  { split; [constructor|by eexists]. }
  rewrite Forall_cons. simpl.
  pose proof (loop_body_cases indices factor st perm) as Hc.
  destruct (indices !! fst perm) as [p|] eqn:Hp;
    [destruct (indices !! snd perm) as [q|] eqn:Hq|].
  - destruct (_ && _) eqn:E.
    + rewrite Hc. cbn [bind].
      apply andb_true_iff in E as [Hf%bool_decide_eq_true Hpq%bool_decide_eq_true].
      split; [by intros [? ?]|]. intros [(p' & q' & ? & ? & Hn) _].
      destruct Hn. split; [done|congruence].
    + destruct Hc as [st' ->]. cbn [bind]. rewrite IH.
      split; [|tauto]. intros HF. split; [|done]. exists p, q.
      split; [done|]. split; [done|]. intros [Hf Hpq].
      by rewrite (bool_decide_true _ Hf), (bool_decide_true _ Hpq) in E.
  - rewrite Hc. split; [by intros [? ?]|].
    intros [(p' & q' & ? & ? & _) _]. congruence.
  - rewrite Hc. split; [by intros [? ?]|].
    intros [(p' & q' & ? & ? & _) _]. congruence.
Qed.

(** The loop keeps [permuted] a rearrangement of the given sequence. *)
Lemma loop_perm indices factor rest :
  ∀ seen st st',
    NoDup (chain (seen ++ rest)) →
    every_pair_swapped indices (permuted st) seen → permuted st ≡ₚ indices →
    loop indices factor rest st = Return (Some st') →
    permuted st' ≡ₚ indices.
Proof.
  induction rest as [|perm rest IH]; intros seen st st' Hnd Hsw Hp; simpl.
  { by intros [= <-]. }
  destruct (loop_body indices factor st perm) as [[st1|]|e|] eqn:Hbody;
    simpl; try done.
  intros Hloop. rewrite (cons_middle perm seen rest), app_assoc in Hnd.
  assert (NoDup (chain (seen ++ [perm]))) as Hnd1.
  { rewrite chain_app in Hnd. by apply NoDup_app in Hnd as (? & _). }
  apply (IH (seen ++ [perm]) st1); [done| | |done].
  { by eapply loop_body_swapped. }
  destruct Hsw as (_ & Hrest & Hlen).
  apply loop_body_Some in Hbody as (p & q & Hp1 & Hq1 & -> & _).
  rewrite chain_app in Hnd1. apply NoDup_app in Hnd1 as (_ & Hdisj & _).
  assert ((fst (sorted perm) ∉ chain seen) ∧ (snd (sorted perm) ∉ chain seen))
    as [Hi Hj].
  { split; intros Hin; apply (Hdisj _ Hin); simpl;
      destruct (sorted_cases perm) as [-> | ->]; simpl;
      rewrite !elem_of_cons; tauto. }
  rewrite <- Hp.
  assert (exchange (fst (sorted perm)) (snd (sorted perm)) (permuted st)
          = <[snd (sorted perm) := p]> (<[fst (sorted perm) := q]> (permuted st)))
    as <-.
  { unfold exchange. by rewrite (Hrest _ Hi), (Hrest _ Hj), Hp1, Hq1. }
  apply exchange_perm.
Qed.

(** What the constructor returns, from the variables the loop leaves. *)
Lemma constructor_returns symbol indices perms factor r :
  __new__ symbol indices perms factor = Return r →
  NoDup (chain perms) ∧ factor ∈ [1%Z; (-1)%Z]
  ∧ ((r = S_Zero ∧ loop indices factor perms (initial indices) = Return None)
     ∨ ∃ st,
         loop indices factor perms (initial indices) = Return (Some st)
         ∧ every_pair_swapped indices (permuted st) perms
         ∧ permuted st ≡ₚ indices
         ∧ tracked perms st
         ∧ r = let t := {| symbol := symbol;
                           indices := if batch_applied perms st
                                      then permuted st else indices;
                           perms := perms; factor := factor |} in
               if batch_applied perms st && bool_decide (factor = (-1)%Z)
               then Minus t else Plus t).
Proof.
  unfold __new__. case_bool_decide as Hnd; [done|].
  case_bool_decide as Hf; [done|].
  apply size_list_to_set_NoDup in Hnd. fold (initial indices).
  destruct (loop indices factor perms (initial indices)) as [[st|]|e|] eqn:Hloop;
    cbn [bind]; try done.
  - destruct (loop_from_initial _ _ _ _ Hnd Hloop) as [Hsw Htr].
    rewrite (resolve_tracked _ _ _ _ Htr). cbn [bind].
    intros Hr. split; [done|]. split; [done|]. right. exists st.
    split; [done|]. split; [done|]. split.
    { apply (loop_perm indices factor perms [] (initial indices)); try done.
      split; [|done]. intros perm Hin. by apply elem_of_nil in Hin. }
    split; [done|].
    destruct (batch_applied perms st); simpl in *;
      [destruct (bool_decide (factor = (-1)%Z))|]; by injection Hr as <-.
  - intros [= <-]. split; [done|]. split; [done|]. by left.
Qed.



(** X18: for disjoint pairs at positions of the sequence the constructor
    returns zero exactly when the factor is -1 and some pair holds the same
    index twice; and it returns a negated tensor only for the factor -1. *)
Theorem zero_iff_equal_pair symbol indices perms factor :
  NoDup (chain perms) →
  Forall (λ perm, fst perm < length indices ∧ snd perm < length indices) perms →
  (__new__ symbol indices perms factor = Return S_Zero
   ↔ factor = (-1)%Z
     ∧ ∃ perm p, perm ∈ perms ∧ indices !! fst perm = Some p
                 ∧ indices !! snd perm = Some p)
  ∧ (∀ t, __new__ symbol indices perms factor = Return (Minus t) →
       factor = (-1)%Z).
Proof.
  intros Hnd Hrange. split; [split|].
  - intros (_ & _ & [[_ Hl]|(st & _ & _ & _ & _ & Hr)])%constructor_returns.
    + by apply loop_None in Hl.
    + revert Hr. simpl. by destruct (_ && _).
  - intros (-> & perm & p & Hin & Hp & Hq). by eapply new_self_pair.
  - intros t (_ & _ & [[? _]|(st & _ & _ & _ & _ & Hr)])%constructor_returns; [done|].
    revert Hr. simpl. destruct (batch_applied perms st); simpl; [|done].
    by case_bool_decide.
Qed.


Lemma marked_apply_lookup indices perm p q :
  indices !! fst (sorted perm) = Some p → indices !! snd (sorted perm) = Some q →
  marked_apply indices perm = key_ltb (K q) (K p).
Proof. intros Hp Hq. unfold marked_apply. by rewrite Hp, Hq. Qed.

Lemma loop_all_marked indices factor perms st st' :
  (∀ perm, perm ∈ perms → marked_apply indices perm = true) →
  loop indices factor perms st = Return (Some st') →
  length (apply st') = length (apply st) + length perms.
Proof.
  revert st. induction perms as [|perm perms IH]; intros st Hm; simpl.
  { intros [= <-]. lia. }
  destruct (loop_body indices factor st perm) as [[st1|]|e|] eqn:Hbody;
    simpl; try done.
  intros Hloop. apply IH in Hloop; [|intros ? ?; apply Hm; by right].
  apply loop_body_Some in Hbody as (p & q & Hp & Hq & _ & Ha & _).
  rewrite <- (marked_apply_lookup _ _ _ _ Hp Hq) in Ha.
  destruct Ha as (Ea & _); [apply Hm; left|].
  rewrite Hloop, Ea, length_app. simpl. lia.
Qed.

Lemma loop_none_marked indices factor perms st st' :
  (∀ perm, perm ∈ perms → marked_apply indices perm = false) →
  loop indices factor perms st = Return (Some st') →
  apply st' = apply st.
Proof.
  revert st. induction perms as [|perm perms IH]; intros st Hm; simpl.
  { by intros [= <-]. }
  destruct (loop_body indices factor st perm) as [[st1|]|e|] eqn:Hbody;
    simpl; try done.
  intros Hloop. apply IH in Hloop; [|intros ? ?; apply Hm; by right].
  apply loop_body_Some in Hbody as (p & q & Hp & Hq & _ & _ & Ha).
  rewrite <- (marked_apply_lookup _ _ _ _ Hp Hq) in Ha.
  destruct Ha as (Ea & _); [apply Hm; left|]. congruence.
Qed.

Lemma batch_applied_all perms st :
  length (apply st) = length perms → batch_applied perms st = true.
Proof. intros E. unfold batch_applied. by rewrite bool_decide_true. Qed.

Lemma batch_applied_none perms st :
  perms ≠ [] → apply st = [] → batch_applied perms st = false.
Proof.
  intros Hne E. unfold batch_applied. rewrite E. simpl.
  by destruct perms.
Qed.

(** In a sequence with every pair exchanged, a pair marked before is not
    marked. *)
Lemma swapped_unmarked indices stored perms perm :
  every_pair_swapped indices stored perms → perm ∈ perms →
  marked_apply indices perm = true → marked_apply stored perm = false.
Proof.
  intros (Hsw & _) Hin. destruct (Hsw perm Hin) as [E1 E2].
  unfold marked_apply.
  destruct (sorted_cases perm) as [-> | ->]; simpl; rewrite E1, E2;
    destruct (indices !! fst perm) as [p|], (indices !! snd perm) as [q|];
    try done; unfold key_ltb;
    rewrite (cmp_opp _ key_total_cmp (K p) (K q));
    by destruct (key_compare (K p) (K q)).
Qed.

Lemma new_all_marked symbol indices perms factor r t :
  __new__ symbol indices perms factor = Return r → carried r = Some t →
  (∀ perm, perm ∈ perms → marked_apply indices perm = true) →
  every_pair_swapped indices (SingleSymmetryTensor.indices t) perms
  ∧ r = (if bool_decide (factor = (-1)%Z) then Minus t else Plus t)
  ∧ ∀ perm, perm ∈ perms →
      marked_apply (SingleSymmetryTensor.indices t) perm = false.
Proof.
  intros (Hnd & Hf & [[-> _]|(st & Hloop & Hsw & Hp & _ & ->)])%constructor_returns Ht;
    [done|].
  intros Hm. pose proof (loop_all_marked _ _ _ _ _ Hm Hloop) as Hlen.
  simpl in Hlen. apply batch_applied_all in Hlen.
  revert Ht. rewrite Hlen. simpl.
  destruct (bool_decide (factor = (-1)%Z)); intros [= <-]; simpl;
    (split; [done|]); (split; [done|]); intros perm Hin;
    by eapply swapped_unmarked; [| |apply Hm].
Qed.

Lemma new_none_marked symbol indices perms factor r t :
  __new__ symbol indices perms factor = Return r → carried r = Some t →
  perms ≠ [] →
  (∀ perm, perm ∈ perms → marked_apply indices perm = false) →
  SingleSymmetryTensor.indices t = indices ∧ r = Plus t.
Proof.
  intros (Hnd & Hf & [[-> _]|(st & Hloop & Hsw & Hp & _ & ->)])%constructor_returns Ht;
    [done|].
  intros Hne Hm. pose proof (loop_none_marked _ _ _ _ _ Hm Hloop) as Ea.
  simpl in Ea. apply (batch_applied_none perms) in Ea; [|done].
  revert Ht. rewrite Ea. simpl. by intros [= <-].
Qed.


(** X21: a stored tensor that has pairs, none of them marked, is a fixed
    point: the constructor called on its symbol, indices, pairs and factor
    returns it, with no sign. *)
Theorem unmarked_is_stable symbol indices perms factor r t :
  __new__ symbol indices perms factor = Return r → carried r = Some t →
  perms ≠ [] →
  (∀ perm, perm ∈ perms →
     marked_apply (SingleSymmetryTensor.indices t) perm = false) →
  __new__ symbol (SingleSymmetryTensor.indices t) perms factor
  = Return (Plus t).
Proof.
  intros (Hnd & Hf & [[-> _]|(st & Hloop & Hsw & Hp & _ & ->)])%constructor_returns Ht;
    [done|].
  intros Hne Hm.
  assert (t = {| symbol := symbol;
                 indices := if batch_applied perms st then permuted st else indices;
                 perms := perms; factor := factor |}) as Et.
  { revert Ht. simpl. by destruct (_ && _); intros [= <-]. }
  assert (∃ st', loop (SingleSymmetryTensor.indices t) factor perms
                   (initial (SingleSymmetryTensor.indices t))
                 = Return (Some st')) as [st' Hloop'].
  { apply loop_Some.
    assert (∃ st', loop indices factor perms (initial indices) = Return (Some st'))
      as HF by by exists st.
    apply loop_Some in HF. rewrite Forall_forall in HF |- *.
    intros perm Hin. destruct (HF perm Hin) as (p & q & Hp1 & Hq1 & Hn).
    rewrite Et. simpl. destruct (batch_applied perms st).
    - destruct Hsw as (Hsw & _). destruct (Hsw perm Hin) as [E1 E2].
      exists q, p. rewrite E1, E2. split; [done|]. split; [done|].
      intros [? ?]. apply Hn. by split.
    - by exists p, q. }
  pose proof (loop_none_marked _ _ _ _ _ Hm Hloop') as Ea. simpl in Ea.
  unfold __new__. fold (initial (SingleSymmetryTensor.indices t)).
  rewrite (bool_decide_false (length _ ≠ size _))
    by (intros Hx; apply Hx; by apply size_list_to_set_NoDup).
  rewrite (bool_decide_false (factor ∉ _)) by tauto.
  rewrite Hloop'. cbn [bind]. unfold resolve. rewrite Ea. simpl.
  destruct perms as [|perm perms]; [done|]. simpl.
  rewrite Et. done.
Qed.

(** X22: with a single pair, the stored sequence is in order at the pair:
    the key of the index at the later position is not below the key of the
    index at the earlier one. *)
Theorem single_pair_in_order symbol indices perm factor r t :
  __new__ symbol indices [perm] factor = Return r → carried r = Some t →
  ∃ p q,
    SingleSymmetryTensor.indices t !! fst (sorted perm) = Some p
    ∧ SingleSymmetryTensor.indices t !! snd (sorted perm) = Some q
    ∧ key_ltb (K q) (K p) = false.
Proof.
  intros Hnew Ht.
  pose proof Hnew as
    (Hnd & Hf & [[-> _]|(st & Hloop & Hsw & Hp & _ & Hr)])%constructor_returns; [done|].
  assert (∃ p q, indices !! fst (sorted perm) = Some p
                 ∧ indices !! snd (sorted perm) = Some q) as (p & q & Hp1 & Hq1).
  { revert Hloop. simpl.
    destruct (loop_body indices factor (initial indices) perm)
      as [[st1|]|e|] eqn:Hbody; simpl; try done.
    apply loop_body_Some in Hbody as (p & q & ? & ? & _). intros _.
    by exists p, q. }
  assert (marked_apply (SingleSymmetryTensor.indices t) perm = false) as Hm.
  { destruct (marked_apply indices perm) eqn:E.
    - eapply (new_all_marked _ _ _ _ _ _ Hnew Ht); [|left].
      by intros perm' ->%list_elem_of_singleton.
    - destruct (new_none_marked _ _ _ _ _ _ Hnew Ht) as [-> _]; [done| |done].
      by intros perm' ->%list_elem_of_singleton. }
  revert Hm. unfold marked_apply.
  assert (length (SingleSymmetryTensor.indices t) = length indices) as Hlen.
  { subst r. revert Ht. simpl. destruct Hsw as (_ & _ & Hl).
    destruct (batch_applied [perm] st); simpl;
      [destruct (bool_decide _)|]; by intros [= <-]. }
  destruct (lookup_lt_is_Some_2 (SingleSymmetryTensor.indices t)
              (fst (sorted perm))) as [p' Hp'].
  { rewrite Hlen. by eapply lookup_lt_Some. }
  destruct (lookup_lt_is_Some_2 (SingleSymmetryTensor.indices t)
              (snd (sorted perm))) as [q' Hq'].
  { rewrite Hlen. by eapply lookup_lt_Some. }
  rewrite Hp', Hq'. intros Hk. by exists p', q'.
Qed.
End more.
End SingleSymmetryTensorMore.

Module SampleMore.
Import Sample.


(** X5, at work: the stored tensor is rebuilt from its own groups. *)
Lemma new_idempotent_witness :
  AntiSymmetricTensor.__new__ "t" (AntiSymmetricTensor.upper oovv)
    (AntiSymmetricTensor.lower oovv) 1
  = Return (Plus oovv).
Proof.
  apply (AntiSymmetricTensorMore.new_idempotent (H := host)
           "t" [a; b] [i; j] 1 (Plus oovv) oovv).
  - vm_compute. reflexivity.
  - reflexivity.
Defined.

(** X6, at work: [(b, a)] for [(a, b)] in the upper group. *)
Lemma reordering_changes_sign_only_witness :
  AntiSymmetricTensor.__new__ "t" [b; a] [i; j] 1
  = (if bool_decide
          ((inversions AntiSymmetricTensor._sort_canonical [a; b]
            + inversions AntiSymmetricTensor._sort_canonical [i; j]
            + inversions AntiSymmetricTensor._sort_canonical [b; a]
            + inversions AntiSymmetricTensor._sort_canonical [i; j]) mod 2 = 0)
     then AntiSymmetricTensor.__new__ "t" [a; b] [i; j] 1
     else negated (AntiSymmetricTensor.__new__ "t" [a; b] [i; j] 1)).
Proof.
  apply (AntiSymmetricTensorMore.reordering_changes_sign_only (H := host)
           "t" [a; b] [i; j] [b; a] [i; j] 1).
  - apply perm_swap.
  - reflexivity.
Defined.

(** X7, at work: one inversion in [(b, a)] over [(i, j)]. *)
Lemma sign_is_parity_of_inversions_witness :
  (Minus vvoo
   = Minus vvoo
   ↔ (inversions AntiSymmetricTensor._sort_canonical [b; a]
      + inversions AntiSymmetricTensor._sort_canonical [i; j]) mod 2 = 1)
  ∧ (Minus vvoo
     = Plus vvoo
     ↔ (inversions AntiSymmetricTensor._sort_canonical [b; a]
        + inversions AntiSymmetricTensor._sort_canonical [i; j]) mod 2 = 0).
Proof.
  apply (AntiSymmetricTensorMore.sign_is_parity_of_inversions (H := host)
           "t" [b; a] [i; j]).
  - vm_compute. reflexivity.
  - reflexivity.
Defined.

(** X8, at work: occupied over virtual gives the tensor of virtual over
    occupied. *)
Lemma bra_ket_exchange_witness :
  AntiSymmetricTensor.__new__ "t" [i; j] [a; b] 1
  = Return (if bool_decide (1 = -1)%Z then negate (Plus oovv) else Plus oovv).
Proof.
  apply (AntiSymmetricTensorMore.bra_ket_exchange (H := host)
           "t" [a; b] [i; j] 1 (Plus oovv) oovv).
  - lia.
  - reflexivity.
  - vm_compute. reflexivity.
  - reflexivity.
  - vm_compute. discriminate.
Defined.

(** X9, at work: the symmetry +1 added to virtual over occupied. *)
Lemma new_by_add_bra_ket_sym_witness :
  AntiSymmetricTensor.__new__ "t" [a; b] [i; j] 1
  = AntiSymmetricTensor.add_bra_ket_sym
      vvoo 1.
Proof.
  apply (AntiSymmetricTensorMore.new_by_add_bra_ket_sym (H := host)
           "t" [a; b] [i; j]
           (Plus vvoo)).
  - vm_compute. reflexivity.
  - reflexivity.
Defined.

(** X10, at work: the groups of virtual over occupied are exchanged. *)
Lemma add_bra_ket_sym_result_witness :
  AntiSymmetricTensor.bra_ket_sym
    vvoo = 0%Z
  ∧ AntiSymmetricTensor.symbol oovv = "t"%string
  ∧ AntiSymmetricTensor.bra_ket_sym oovv = 1%Z
  ∧ ((AntiSymmetricTensor.upper oovv = [a; b]
      ∧ AntiSymmetricTensor.lower oovv = [i; j]
      ∧ Plus oovv = Plus oovv)
     ∨ (AntiSymmetricTensor.upper oovv = [i; j]
        ∧ AntiSymmetricTensor.lower oovv = [a; b]
        ∧ 1%Z ∈ [1%Z; (-1)%Z]
        ∧ Plus oovv = if bool_decide (1 = -1)%Z then Minus oovv else Plus oovv)).
Proof.
  apply (AntiSymmetricTensorMore.add_bra_ket_sym_result (H := host)
           vvoo 1 (Plus oovv) oovv).
  - split; repeat constructor.
  - lia.
  - vm_compute. reflexivity.
  - reflexivity.
Defined.

(** X11, at work: the delta of [p] and [i]. *)
Lemma symbolic_delta_is_stable_witness :
  Delta.Delta 5 p i None = Return (Delta.KroneckerDelta p i None).
Proof.
  apply (DeltaMore.symbolic_delta_is_stable (H := host) 2 i p None p i None 5).
  - vm_compute. reflexivity.
  - lia.
Defined.

(** X13, at work: an occupied and a virtual index. *)
Lemma Delta_of_indices_witness :
  Delta.Delta 2 i a None = Return Delta.Zero.
Proof.
  apply (DeltaMore.Delta_of_indices (H := host) 2
           {| space0 := "o"; spin := ""; name0 := "i"; name_tail := None;
              ident := 1 |}
           {| space0 := "v"; spin := ""; name0 := "a"; name_tail := None;
              ident := 3 |} None).
  - lia.
  - reflexivity.
  - reflexivity.
  - reflexivity.
Defined.

(** X14, at work: the delta of [p] and [i]. *)
Lemma symbolic_delta_invariant_witness :
  ∃ x y,
    p = VIndex x ∧ i = VIndex y
    ∧ Delta.outside_range p i None = Return false
    ∧ diff_is_zero p i = None
    ∧ (space0 x = space0 y ∨ space0 x = "g"%char ∨ space0 y = "g"%char)
    ∧ (spin x = spin y ∨ spin x = ""%string ∨ spin y = ""%string)
    ∧ key_ltb (Delta._sort_canonical i) (Delta._sort_canonical p) = false.
Proof.
  apply (DeltaMore.symbolic_delta_invariant (H := host) 2 i p None p i None).
  vm_compute. reflexivity.
Defined.


(** X18, at work: the antisymmetric [(i, i, a, b)] under the pair [(0, 1)]. *)
Lemma zero_iff_equal_pair_witness :
  (SingleSymmetryTensor.__new__ "u" [i; i; a; b] [(0, 1)] (-1) = Return S_Zero
   ↔ (-1)%Z = (-1)%Z
     ∧ ∃ perm q, perm ∈ [(0, 1)] ∧ [i; i; a; b] !! fst perm = Some q
                 ∧ [i; i; a; b] !! snd perm = Some q)
  ∧ (∀ t, SingleSymmetryTensor.__new__ "u" [i; i; a; b] [(0, 1)] (-1)
          = Return (Minus t) → (-1)%Z = (-1)%Z).
Proof.
  apply (SingleSymmetryTensorMore.zero_iff_equal_pair (H := host)
           "u" [i; i; a; b] [(0, 1)] (-1)).
  - apply (bool_decide_unpack _). vm_compute. reflexivity.
  - repeat constructor; simpl; lia.
Defined.


(** X21, at work: [(j, i, b, a)] is stored as [(i, j, a, b)], which is
    rebuilt unchanged. *)
Lemma unmarked_is_stable_witness :
  SingleSymmetryTensor.__new__ "u" [i; j; a; b] two_pairs 1
  = Return (Plus ordered_stored).
Proof.
  apply (SingleSymmetryTensorMore.unmarked_is_stable (H := host)
           "u" [j; i; b; a] two_pairs 1 (Plus ordered_stored) ordered_stored).
  - vm_compute. reflexivity.
  - reflexivity.
  - discriminate.
  - apply Forall_forall. repeat constructor.
Defined.

(** X22, at work: the pair of [(j, i)] is stored in order. *)
Lemma single_pair_in_order_witness :
  ∃ x y,
    [i; j] !! fst (SingleSymmetryTensor.sorted (0, 1)) = Some x
    ∧ [i; j] !! snd (SingleSymmetryTensor.sorted (0, 1)) = Some y
    ∧ key_ltb (SingleSymmetryTensor._sort_canonical y)
        (SingleSymmetryTensor._sort_canonical x) = false.
Proof.
  apply (SingleSymmetryTensorMore.single_pair_in_order (H := host)
           "u" [j; i] (0, 1) 1
           (Plus pair_stored)
           pair_stored).
  - vm_compute. reflexivity.
  - reflexivity.
Defined.

End SampleMore.
